(** * The signaling server of WebRTC-Stream-NodeJS (src/server.js)

    A shallow embedding of the room registry and of the four socket handlers
    ('join-room', 'signal', 'frame', 'disconnect'), followed by a small model
    of the socket.io room adapter the handlers talk to, and the properties
    of the relay that the specification states. *)

From stdpp Require Import list strings gmap.
From Stdlib Require Strings.Byte.

Open Scope string_scope.
Open Scope list_scope.

(** ** JavaScript values that travel through the handlers *)

(** The payloads are whatever the client put on the wire.  Only what the
    server looks at is modelled: [null]/[undefined], booleans, strings,
    plain objects (a list of own properties, in order) and arrays. *)
#[warnings="-register-all"]
Inductive JsVal : Type :=
| JUndefined
| JNull
| JBool (b : bool)
| JStr (s : string)
| JObj (fields : list (string * JsVal))
| JArr (items : list JsVal).

(** [if (v)] *)
Definition truthy (v : JsVal) : bool :=
  match v with
  | JUndefined | JNull => false
  | JBool b => b
  | JStr s => negb (String.eqb s "")
  | JObj _ | JArr _ => true
  end.

(** [o.k] on an object given by its own properties: [undefined] if absent. *)
Fixpoint prop (o : list (string * JsVal)) (k : string) : JsVal :=
  match o with
  | [] => JUndefined
  | (k', v) :: o' => if String.eqb k k' then v else prop o' k
  end.

(** ** [Map]: unique string keys, iterated in insertion order *)

Module JsMap.
Section ops.
Context {V : Type}.

(** [m.get(k)] ([None] is [undefined]) *)
Fixpoint get (k : string) (m : list (string * V)) : option V :=
  match m with
  | [] => None
  | (k', v) :: m' => if decide (k = k') then Some v else get k m'
  end.

(** [m.has(k)] *)
Definition has (k : string) (m : list (string * V)) : bool :=
  match get k m with Some _ => true | None => false end.

(** [m.set(k, v)]: an existing key keeps its place, a new one goes last. *)
Fixpoint set (k : string) (v : V) (m : list (string * V)) : list (string * V) :=
  match m with
  | [] => [(k, v)]
  | (k', v') :: m' =>
      if decide (k = k') then (k, v) :: m' else (k', v') :: set k v m'
  end.

(** [m.delete(k)] *)
Fixpoint delete (k : string) (m : list (string * V)) : list (string * V) :=
  match m with
  | [] => []
  | (k', v') :: m' =>
      if decide (k = k') then m' else (k', v') :: delete k m'
  end.

(** [m.forEach((v, k) => ...)] for a callback that touches the map only at
    the key it is called with (it may rewrite or delete that entry): every
    entry present at the start is visited once, in insertion order.  The
    callback receives the map as it stands and returns it together with
    what it emitted. *)
Definition forEach {E : Type}
    (cb : V → string → list (string * V) → list (string * V) * list E)
    (m : list (string * V)) : list (string * V) * list E :=
  foldl (λ acc kv, let '(m', out) := cb kv.2 kv.1 acc.1 in (m', acc.2 ++ out))
        (m, []) m.

(** What makes a list of entries a JavaScript [Map]: no key twice. *)
Definition wf (m : list (string * V)) : Prop := NoDup m.*1.
End ops.
End JsMap.

(** ** The registry: [const rooms = new Map()] *)

(** [{ host: null, viewers: [] }]; [host] is [null] ([None]) or a socket id. *)
Record Room : Type := mkRoom { host : option string; viewers : list string }.

Definition Rooms : Type := list (string * Room).

(** [if (room.host)] / [!room.host]: [null] and the empty string are falsy. *)
Definition host_truthy (h : option string) : bool :=
  match h with
  | Some s => truthy (JStr s)
  | None => false
  end.

(** ** What a handler asks of socket.io, in program order *)

Inductive Cmd : Type :=
| SocketJoin (room : string)                              (* socket.join(room) *)
| SocketEmit (ev : string) (args : list JsVal)            (* socket.emit(ev, ...) *)
| SocketTo (room : string) (ev : string) (args : list JsVal) (* socket.to(room).emit(ev, ...) *)
| IoTo (room : JsVal) (ev : string) (args : list JsVal).  (* io.to(room).emit(ev, ...) *)

(** [role === 'host'] *)
Definition is_host (role : JsVal) : bool :=
  match role with
  | JStr s => String.eqb s "host"
  | _ => false
  end.

(** [socket.on('join-room', ({ roomId, role }) => ...)] for the socket [sid]. *)
Definition on_join_room (sid roomId : string) (role : JsVal) (rooms : Rooms)
  : Rooms * list Cmd :=
  let rooms :=
    if JsMap.has roomId rooms then rooms
    else JsMap.set roomId (mkRoom None []) rooms in
  match JsMap.get roomId rooms with
  | None => (rooms, [SocketJoin roomId]) (* never taken: the key was just set *)
  | Some room =>
      if is_host role then
        (JsMap.set roomId (mkRoom (Some sid) (viewers room)) rooms,
         [ SocketJoin roomId;
           SocketEmit "joined" [JObj [("role", JStr "host"); ("roomId", JStr roomId)]];
           SocketTo roomId "host-ready" [] ])
      else
        let room := mkRoom (host room) (viewers room ++ [sid]) in
        (JsMap.set roomId room rooms,
         [ SocketJoin roomId;
           SocketEmit "joined" [JObj [("role", JStr "viewer"); ("roomId", JStr roomId)]] ]
         ++ match host room with
            | Some h =>
                if host_truthy (Some h)
                then [IoTo (JStr h) "viewer-joined" [JObj [("viewerId", JStr sid)]]]
                else []
            | None => []
            end)
  end.

(** [socket.on('signal', ({ roomId, to, signal }) => ...)]: [roomId] is bound
    and never read. *)
Definition on_signal (sid : string) (roomId to signal : JsVal) (rooms : Rooms)
  : Rooms * list Cmd :=
  (rooms, [IoTo to "signal" [JObj [("from", JStr sid); ("signal", signal)]]]).

(** [socket.on('frame', (data) => ...)], [data] an object. *)
Definition on_frame (sid : string) (data : list (string * JsVal)) (rooms : Rooms)
  : Rooms * list Cmd :=
  if truthy (prop data "to")
  then (rooms, [IoTo (prop data "to") "frame" [JObj data]])
  else (rooms, []).

(** The callback of [rooms.forEach] in the 'disconnect' handler.  [room] is
    the object stored under [roomId]; the assignments to its fields are
    written back under that key. *)
Definition disconnect_room (sid : string) (room : Room) (roomId : string)
    (rooms : Rooms) : Rooms * list Cmd :=
  let '(room, out) :=
    if decide (host room = Some sid)
    then (mkRoom None (viewers room), [SocketTo roomId "host-disconnected" []])
    else (room, []) in
  let room := mkRoom (host room) (filter (λ id, id ≠ sid) (viewers room)) in
  let rooms := JsMap.set roomId room rooms in
  if negb (host_truthy (host room)) && Nat.eqb (List.length (viewers room)) 0
  then (JsMap.delete roomId rooms, out)
  else (rooms, out).

(** [socket.on('disconnect', () => ...)] *)
Definition on_disconnect (sid : string) (rooms : Rooms) : Rooms * list Cmd :=
  JsMap.forEach (disconnect_room sid) rooms.

(** The events a connected socket can raise, and their dispatch. *)
Inductive Event : Type :=
| JoinRoom (roomId : string) (role : JsVal)
| Signal (roomId to signal : JsVal)
| Frame (data : list (string * JsVal))
| Disconnect.

Definition handle (sid : string) (e : Event) (rooms : Rooms) : Rooms * list Cmd :=
  match e with
  | JoinRoom roomId role => on_join_room sid roomId role rooms
  | Signal roomId to signal => on_signal sid roomId to signal rooms
  | Frame data => on_frame sid data rooms
  | Disconnect => on_disconnect sid rooms
  end.

(** The registry after a sequence of events, each tagged with its socket. *)
Definition run (evs : list (string * Event)) (rooms : Rooms) : Rooms :=
  foldl (λ rooms se, (handle se.1 se.2 rooms).1) rooms evs.

(** Every registry the server can be in: it starts with [new Map()]. *)
Definition registry_after (evs : list (string * Event)) : Rooms := run evs [].

(** ** Who is where in the registry *)

(** [sid] occupies a slot of [room]: it is its host or one of its viewers. *)
Definition references (sid : string) (room : Room) : Prop :=
  host room = Some sid ∨ sid ∈ viewers room.

(** [sid] is a member of the room stored under [roomId]. *)
Definition member (sid roomId : string) (rooms : Rooms) : Prop :=
  ∃ room, JsMap.get roomId rooms = Some room ∧ references sid room.

(** The same test as a boolean, over the whole registry: the session of
    [sid] is "Joined" when some room holds it. *)
Definition joined (sid : string) (rooms : Rooms) : bool :=
  existsb (λ kv, bool_decide (host kv.2 = Some sid) || bool_decide (sid ∈ viewers kv.2))
          rooms.

(** A 'join-room' that does not meet the joining socket in the room it
    names: a join as host when the socket is not among the room's viewers,
    a join as viewer when the socket is neither the room's host nor among
    its viewers.  A room that is not there yet can be joined by anyone. *)
Definition join_keeps_roles (sid roomId : string) (role : JsVal) (rooms : Rooms) : bool :=
  match JsMap.get roomId rooms with
  | None => true
  | Some room =>
      if is_host role
      then negb (bool_decide (sid ∈ viewers room))
      else negb (bool_decide (host room = Some sid)) &&
           negb (bool_decide (sid ∈ viewers room))
  end.

(** A trace all of whose 'join-room' events are such, each at its moment. *)
Fixpoint joins_keep_roles (rooms : Rooms) (evs : list (string * Event)) : bool :=
  match evs with
  | [] => true
  | (sid, e) :: evs' =>
      match e with
      | JoinRoom roomId role => join_keeps_roles sid roomId role rooms
      | _ => true
      end && joins_keep_roles (handle sid e rooms).1 evs'
  end.

(** The roles of one room do not overlap: its host is not among its viewers
    and no viewer is listed twice. *)
Definition roles_exclusive (room : Room) : Prop :=
  (∀ sid, host room = Some sid → sid ∉ viewers room) ∧ NoDup (viewers room).

(** A room nobody is in. *)
Definition empty_room (room : Room) : Prop :=
  host room = None ∧ viewers room = [].

(** ** The socket.io side: rooms of sockets, and who gets what

    socket.io keeps, per room name, the set of sockets in it.  A socket is
    put in the room named by its own id when it connects, [socket.join]
    adds it to a room, and it has left every room by the time its
    'disconnect' event fires.  [io.to(r)] reaches the sockets of room [r],
    [socket.to(r)] the same except the emitting socket, [socket.emit] the
    socket itself. *)

(** The sockets in [room]. *)
Definition sockets_in (room : string) (ad : gmap string (gset string)) : gset string :=
  default ∅ (ad !! room).

(** [socket.join(room)] for the socket [sid] *)
Definition adapter_add (sid room : string) (ad : gmap string (gset string))
  : gmap string (gset string) :=
  <[room := {[sid]} ∪ sockets_in room ad]> ad.

(** [sid] leaves every room (on close, before 'disconnect' is raised). *)
Definition adapter_del_all (sid : string) (ad : gmap string (gset string))
  : gmap string (gset string) :=
  (λ s, s ∖ {[sid]}) <$> ad.

(** Every socket that is in some room. *)
Definition all_sockets (ad : gmap string (gset string)) : gset string :=
  ⋃ (map_to_list ad).*2.

(** The sockets of the room an array item names; only a string names one. *)
Definition room_sockets (ad : gmap string (gset string)) (item : JsVal) : gset string :=
  match item with
  | JStr r => sockets_in r ad
  | _ => ∅
  end.

(** The sockets [io.to(room)] selects.  A string names one room and an
    array names a room with each of its items; the sockets of the rooms
    named are selected.  When no room at all is named, which is what the
    empty array does, socket.io selects every socket. *)
Definition targets (room : JsVal) (ad : gmap string (gset string)) : gset string :=
  match room with
  | JStr r => sockets_in r ad
  | JArr [] => all_sockets ad
  | JArr items => ⋃ (room_sockets ad <$> items)
  | _ => ∅
  end.

(** [to] addresses the room named [t]: it is that name, or an array that
    lists it, or the empty array, which addresses every room. *)
Definition addresses (to : JsVal) (t : string) : Prop :=
  to = JStr t ∨ (∃ items, to = JArr items ∧ JStr t ∈ items) ∨ to = JArr [].

(** One emitted packet: event name, arguments, and the sockets it goes to. *)
Record Delivery : Type :=
  mkDelivery { recipients : gset string; event : string; args : list JsVal }.

(** Carrying out one command of the handler running for socket [sid]. *)
Definition exec (sid : string) (c : Cmd) (ad : gmap string (gset string))
  : gmap string (gset string) * list Delivery :=
  match c with
  | SocketJoin room => (adapter_add sid room ad, [])
  | SocketEmit ev a => (ad, [mkDelivery {[sid]} ev a])
  | SocketTo room ev a => (ad, [mkDelivery (sockets_in room ad ∖ {[sid]}) ev a])
  | IoTo room ev a => (ad, [mkDelivery (targets room ad) ev a])
  end.

Definition exec_all (sid : string) (cmds : list Cmd) (ad : gmap string (gset string))
  : gmap string (gset string) * list Delivery :=
  foldl (λ acc c, let '(ad', ds) := exec sid c acc.1 in (ad', acc.2 ++ ds))
        (ad, []) cmds.

(** The whole server: the registry and socket.io's rooms. *)
Record Server : Type :=
  mkServer { srv_rooms : Rooms; srv_adapter : gmap string (gset string) }.

(** What reaches the server: a new connection, or an event of a socket. *)
Inductive Input : Type :=
| Connection (sid : string)
| On (sid : string) (e : Event).

(** [io.on('connection', (socket) => ...)] only registers the handlers; an
    event runs its handler and then socket.io carries out the emits. *)
Definition step (st : Server) (i : Input) : Server * list Delivery :=
  match i with
  | Connection sid =>
      (mkServer (srv_rooms st) (adapter_add sid sid (srv_adapter st)), [])
  | On sid e =>
      let ad :=
        match e with
        | Disconnect => adapter_del_all sid (srv_adapter st)
        | _ => srv_adapter st
        end in
      let '(rooms, cmds) := handle sid e (srv_rooms st) in
      let '(ad, ds) := exec_all sid cmds ad in
      (mkServer rooms ad, ds)
  end.

Definition steps (st : Server) (ins : list Input) : Server :=
  foldl (λ st i, (step st i).1) st ins.

(** The server as it starts: no room, no socket. *)
Definition init : Server := mkServer [] ∅.

(** [sid] is a live socket: it sits in the room of its own name. *)
Definition connected (sid : string) (st : Server) : Prop :=
  sid ∈ sockets_in sid (srv_adapter st).

(** The packets, in order, among [ds] that reach the socket [c]. *)
Definition received (c : string) (ds : list Delivery) : list (string * list JsVal) :=
  (λ d, (event d, args d)) <$> filter (λ d, c ∈ recipients d) ds.

(** The target a relayed event names, if it is a relayed event. *)
Definition relay_to (e : Event) : option JsVal :=
  match e with
  | Signal _ to _ => Some to
  | Frame data => Some (prop data "to")
  | _ => None
  end.


(** ** The 'disconnect' sweep, room by room

    What follows describes the outcome of [on_disconnect] entry by entry;
    [on_disconnect_eq] below proves that the handler computes exactly this
    on a [Map]. *)

(** What the callback leaves of one room once [sid] is gone from it. *)
Definition leave (sid : string) (room : Room) : Room :=
  mkRoom (if decide (host room = Some sid) then None else host room)
         (filter (λ id, id ≠ sid) (viewers room)).

(** The test of the callback's last [if]: [!room.host && room.viewers.length === 0]. *)
Definition abandoned (room : Room) : bool :=
  negb (host_truthy (host room)) && Nat.eqb (List.length (viewers room)) 0.

(** The broadcast of the callback's first [if]. *)
Definition host_left (sid : string) (kv : string * Room) : list Cmd :=
  if decide (host kv.2 = Some sid)
  then [SocketTo kv.1 "host-disconnected" []]
  else [].

(** The registry with every room swept, the abandoned ones dropped. *)
Definition swept (sid : string) (rooms : Rooms) : Rooms :=
  filter (λ kv, abandoned kv.2 = false) (prod_map id (leave sid) <$> rooms).

(** ** The 'join-room' update of one room *)

(** The room stored under [roomId] once [sid] has joined it, from what was
    stored there before ([None]: the room did not exist);
    [on_join_room_rooms] below proves that the handler stores exactly this. *)
Definition room_after_join (sid : string) (role : JsVal) (old : option Room) : Room :=
  let room := default (mkRoom None []) old in
  if is_host role
  then mkRoom (Some sid) (viewers room)
  else mkRoom (host room) (viewers room ++ [sid]).

(** ** Runs of the server *)

(** The socket an input belongs to. *)
Definition socket_of (i : Input) : string :=
  match i with
  | Connection sid => sid
  | On sid _ => sid
  end.

(** Everything the server delivers while it handles [ins], in order. *)
Fixpoint deliveries (st : Server) (ins : list Input) : list Delivery :=
  match ins with
  | [] => []
  | i :: ins' => (step st i).2 ++ deliveries (step st i).1 ins'
  end.

(** The inputs socket.io can raise: the id of a new connection is not the
    empty string, and an event comes from a socket that is connected when
    it is raised. *)
Fixpoint admissible (st : Server) (ins : list Input) : bool :=
  match ins with
  | [] => true
  | i :: ins' =>
      match i with
      | Connection sid => negb (String.eqb sid "")
      | On sid _ => bool_decide (sid ∈ sockets_in sid (srv_adapter st))
      end && admissible (step st i).1 ins'
  end.

(** The packet a relayed event of socket [sid] turns into: the 'signal'
    handler wraps the payload with the sender's id, the 'frame' handler
    passes its argument on. *)
Definition relayed_packet (sid : string) (e : Event) : list (string * list JsVal) :=
  match e with
  | Signal _ _ signal => [("signal", [JObj [("from", JStr sid); ("signal", signal)]])]
  | Frame data => [("frame", [JObj data])]
  | _ => []
  end.

(** ** The capture host: JPEG frames out of ffmpeg's output
    (src/host-ffmpeg.js, [ffmpegProcess.stdout.on('data', ...)]) *)

#[global] Instance byte_eq_decision : EqDecision Byte.byte := Byte.byte_eq_dec.

Module HostFfmpeg.

(** [Buffer.from([0xFF, 0xD8])] and [Buffer.from([0xFF, 0xD9])] *)
Definition SOI : list Byte.byte := [Byte.xff; Byte.xd8].
Definition EOI : list Byte.byte := [Byte.xff; Byte.xd9].

(** [pat] is what [buf] begins with. *)
Fixpoint starts_with (pat buf : list Byte.byte) : bool :=
  match pat, buf with
  | [], _ => true
  | p :: pat', b :: buf' => if decide (p = b) then starts_with pat' buf' else false
  | _ :: _, [] => false
  end.

(** [buf.indexOf(pat)]: where [pat] first occurs in [buf]; [None] is [-1]. *)
Fixpoint indexOf (buf pat : list Byte.byte) : option nat :=
  if starts_with pat buf then Some 0
  else match buf with
       | [] => None
       | _ :: buf' => S <$> indexOf buf' pat
       end.

(** [buf.slice(start, end)] for indices that are not negative. *)
Definition slice (start end_ : nat) (buf : list Byte.byte) : list Byte.byte :=
  take (end_ - start) (drop start buf).

(** The [while (true)] loop: the frames it cuts out of [frameBuffer], in
    order, and what it leaves in [frameBuffer].  Every turn that does not
    break shortens the buffer, so [fuel] turns are enough when [fuel] is the
    length of the buffer ([frames_loop_fuel] below). *)
Fixpoint frames_loop (fuel : nat) (frameBuffer : list Byte.byte)
  : list (list Byte.byte) * list Byte.byte :=
  match fuel with
  | 0 => ([], frameBuffer)
  | S fuel =>
      match indexOf frameBuffer SOI, indexOf frameBuffer EOI with
      | Some startIdx, Some endIdx =>
          if decide (startIdx < endIdx) then
            let frame := slice startIdx (endIdx + 2) frameBuffer in
            let '(frames, rest) := frames_loop fuel (drop (endIdx + 2) frameBuffer) in
            (frame :: frames, rest)
          else ([], frameBuffer)
      | _, _ => ([], frameBuffer)
      end
  end.

(** The loop breaks at once on [buf]: a start marker and an end marker
    after it are not both there. *)
Definition no_frame (buf : list Byte.byte) : Prop :=
  ∀ startIdx endIdx,
    indexOf buf SOI = Some startIdx → indexOf buf EOI = Some endIdx → ¬ startIdx < endIdx.

(** The loop run to its [break]. *)
Definition extract (frameBuffer : list Byte.byte) : list (list Byte.byte) * list Byte.byte :=
  frames_loop (List.length frameBuffer) frameBuffer.

(** The 'data' callback.  It reads the globals [connected] and
    [viewerSocketId], appends [data] to the [frameBuffer] of its closure and
    emits one 'frame' event per frame cut out; it returns the new
    [frameBuffer] and the events emitted.  [encode] is what is done to a
    frame before it is sent ([frame.toString('base64')]).  The frame
    counter only feeds the log. *)
Definition on_data (encode : list Byte.byte → JsVal)
    (connected : bool) (viewerSocketId : option string)
    (frameBuffer data : list Byte.byte) : list Byte.byte * list Event :=
  let '(frames, rest) := extract (frameBuffer ++ data) in
  (rest,
   match viewerSocketId with
   | Some v =>
       if connected && host_truthy (Some v)
       then (λ frame, Frame [("to", JStr v); ("data", encode frame)]) <$> frames
       else []
   | None => []
   end).

(** The 'data' callback over the chunks that arrive, one after the other,
    while the two globals stay as they are. *)
Fixpoint on_chunks (encode : list Byte.byte → JsVal)
    (connected : bool) (viewerSocketId : option string)
    (frameBuffer : list Byte.byte) (chunks : list (list Byte.byte))
  : list Byte.byte * list Event :=
  match chunks with
  | [] => (frameBuffer, [])
  | data :: chunks' =>
      let '(rest, out) := on_data encode connected viewerSocketId frameBuffer data in
      let '(rest', out') := on_chunks encode connected viewerSocketId rest chunks' in
      (rest', out ++ out')
  end.

End HostFfmpeg.

(** ** Facts about [JsMap] *)

Module JsMapFacts.
Section facts.
Context {V : Type}.
Implicit Types (k : string) (v : V) (m : list (string * V)).

Lemma get_set_eq k v m : JsMap.get k (JsMap.set k v m) = Some v.
Proof.
  induction m as [|[k' v'] m IH]; simpl.
  - by rewrite decide_True.
  - destruct (decide (k = k')) as [->|Hne]; simpl.
    + by rewrite decide_True.
    + by rewrite decide_False.
Qed.

Lemma get_set_ne k k' v m :
  k ≠ k' → JsMap.get k' (JsMap.set k v m) = JsMap.get k' m.
Proof.
  intros Hne. induction m as [|[k0 v0] m IH]; simpl.
  - rewrite decide_False; [done | congruence].
  - destruct (decide (k = k0)) as [->|Hk]; simpl.
    + rewrite !decide_False; [done | congruence | congruence].
    + destruct (decide (k' = k0)); [done | apply IH].
Qed.

Lemma get_None k m : JsMap.get k m = None ↔ k ∉ m.*1.
Proof.
  induction m as [|[k' v'] m IH]; simpl.
  - split; [intros _; apply not_elem_of_nil | done].
  - rewrite not_elem_of_cons. destruct (decide (k = k')) as [->|Hne].
    + split; [done | intros [? _]; done].
    + rewrite IH. tauto.
Qed.

Lemma get_Some_elem k v m : JsMap.get k m = Some v → (k, v) ∈ m.
Proof.
  induction m as [|[k' v'] m IH]; simpl; [done|].
  destruct (decide (k = k')) as [->|Hne].
  - intros [= ->]. apply elem_of_cons; by left.
  - intros H. apply elem_of_cons; right; auto.
Qed.

Lemma elem_get k v m : JsMap.wf m → (k, v) ∈ m → JsMap.get k m = Some v.
Proof.
  unfold JsMap.wf. induction m as [|[k' v'] m IH]; simpl.
  - intros _ H. by apply elem_of_nil in H.
  - intros Hnd H. apply NoDup_cons in Hnd as [Hk Hnd].
    apply elem_of_cons in H as [[= <- <-]|H].
    + by rewrite decide_True.
    + rewrite decide_False; [by apply IH|].
      intros <-. apply Hk. apply list_elem_of_fmap. by exists (k, v).
Qed.

Lemma has_true k m : JsMap.has k m = true ↔ k ∈ m.*1.
Proof.
  unfold JsMap.has. destruct (JsMap.get k m) eqn:E.
  - split; [intros _ | done].
    apply get_Some_elem in E. apply list_elem_of_fmap. by exists (k, v).
  - apply get_None in E. split; [done | intros; by destruct E].
Qed.

Lemma keys_set_in k v m : k ∈ m.*1 → (JsMap.set k v m).*1 = m.*1.
Proof.
  induction m as [|[k' v'] m IH]; simpl.
  - intros H. by apply elem_of_nil in H.
  - intros H. destruct (decide (k = k')) as [->|Hne]; simpl; [done|].
    f_equal. apply IH. apply elem_of_cons in H as [?|?]; [done | done].
Qed.

Lemma keys_set_notin k v m : k ∉ m.*1 → (JsMap.set k v m).*1 = m.*1 ++ [k].
Proof.
  induction m as [|[k' v'] m IH]; simpl; [done|].
  intros H. apply not_elem_of_cons in H as [Hne H].
  rewrite decide_False; [|done]. simpl. f_equal. by apply IH.
Qed.

Lemma wf_nil : JsMap.wf ([] : list (string * V)).
Proof. apply NoDup_nil_2. Qed.

Lemma wf_set k v m : JsMap.wf m → JsMap.wf (JsMap.set k v m).
Proof.
  unfold JsMap.wf. intros Hnd. destruct (decide (k ∈ m.*1)) as [Hin|Hout].
  - by rewrite keys_set_in.
  - rewrite keys_set_notin; [|done]. apply NoDup_app. split_and!; [done| |apply NoDup_singleton].
    intros x Hx Hx'. apply list_elem_of_singleton in Hx' as ->. done.
Qed.

Lemma set_app_notin k v pre m :
  k ∉ pre.*1 → JsMap.set k v (pre ++ m) = pre ++ JsMap.set k v m.
Proof.
  induction pre as [|[k' v'] pre IH]; simpl; [done|].
  intros H. apply not_elem_of_cons in H as [Hne H].
  rewrite decide_False; [|done]. f_equal. by apply IH.
Qed.

Lemma delete_app_notin k pre m :
  k ∉ pre.*1 → JsMap.delete k (pre ++ m) = pre ++ JsMap.delete k m.
Proof.
  induction pre as [|[k' v'] pre IH]; simpl; [done|].
  intros H. apply not_elem_of_cons in H as [Hne H].
  rewrite decide_False; [|done]. f_equal. by apply IH.
Qed.
End facts.
End JsMapFacts.

(** ** The 'disconnect' handler, entry by entry *)

Implicit Types (sid roomId r : string) (role : JsVal) (room : Room) (rooms : Rooms).
Implicit Types (e : Event) (evs : list (string * Event)).
Implicit Types (st : Server) (ad : gmap string (gset string)) (ins : list Input).
Implicit Types (to signal : JsVal) (data : list (string * JsVal)) (c t : string).

Lemma disconnect_room_eq sid room roomId rooms :
  disconnect_room sid room roomId rooms =
  (if abandoned (leave sid room)
   then JsMap.delete roomId (JsMap.set roomId (leave sid room) rooms)
   else JsMap.set roomId (leave sid room) rooms,
   host_left sid (roomId, room)).
Proof.
  unfold disconnect_room, leave, host_left, abandoned; simpl.
  destruct (decide (host room = Some sid)); simpl;
    match goal with |- context [if ?b then _ else _] => destruct b end; reflexivity.
Qed.

Lemma forEach_disconnect sid rest : ∀ pre out,
  NoDup rest.*1 → (∀ k, k ∈ pre.*1 → k ∉ rest.*1) →
  foldl (λ acc kv, let '(m', o) := disconnect_room sid kv.2 kv.1 acc.1 in (m', acc.2 ++ o))
        (pre ++ rest, out) rest
  = (pre ++ swept sid rest, out ++ (rest ≫= host_left sid)).
Proof.
  induction rest as [|[k v] rest IH]; intros pre out Hnd Hpre.
  - unfold swept. simpl. by rewrite !app_nil_r.
  - simpl in Hnd. apply NoDup_cons in Hnd as [Hk Hnd].
    assert (k ∉ pre.*1) as Hkpre.
    { intros Hin. apply (Hpre _ Hin). simpl. apply elem_of_cons; by left. }
    cbn [foldl fst snd]. rewrite disconnect_room_eq.
    rewrite JsMapFacts.set_app_notin by done. cbn [JsMap.set].
    rewrite decide_True by done.
    unfold swept. cbn [fmap list_fmap prod_map fst snd id mbind list_bind].
    rewrite filter_cons. cbn [snd].
    destruct (abandoned (leave sid v)) eqn:Hab.
    + rewrite JsMapFacts.delete_app_notin by done. cbn [JsMap.delete].
      rewrite decide_True by done.
      rewrite decide_False by done.
      rewrite IH; [|done|].
      * by rewrite <- app_assoc.
      * intros k' Hk' Hin. apply (Hpre _ Hk'). simpl. apply elem_of_cons; by right.
    + rewrite decide_True by done.
      replace (pre ++ (k, leave sid v) :: rest) with ((pre ++ [(k, leave sid v)]) ++ rest)
        by (by rewrite <- app_assoc).
      rewrite IH; [|done|].
      * by rewrite <- !app_assoc.
      * intros k'. rewrite fmap_app. intros Hk' Hin.
        apply elem_of_app in Hk' as [Hk'|Hk'].
        -- apply (Hpre _ Hk'). simpl. apply elem_of_cons; by right.
        -- simpl in Hk'. apply list_elem_of_singleton in Hk' as ->. done.
Qed.

(** On a [Map], the handler sweeps every room once. *)
Lemma on_disconnect_eq sid rooms :
  JsMap.wf rooms →
  on_disconnect sid rooms = (swept sid rooms, rooms ≫= host_left sid).
Proof.
  intros Hwf. unfold on_disconnect, JsMap.forEach.
  apply (forEach_disconnect sid rooms [] []); [done|].
  intros k Hk. by apply elem_of_nil in Hk.
Qed.

Lemma elem_swept sid rooms r room :
  (r, room) ∈ swept sid rooms ↔
  abandoned room = false ∧ ∃ room0, (r, room0) ∈ rooms ∧ room = leave sid room0.
Proof.
  unfold swept. rewrite list_elem_of_filter, list_elem_of_fmap. simpl.
  split.
  - intros [Hab [[r0 room0] [[= -> ->] Hin]]]. eauto.
  - intros [Hab [room0 [Hin ->]]]. split; [done|]. by exists (r, room0).
Qed.

Lemma keys_swept sid rooms : (swept sid rooms).*1 `sublist_of` rooms.*1.
Proof.
  unfold swept. induction rooms as [|[k v] rooms IH]; simpl; [done|].
  rewrite filter_cons. simpl. destruct (decide (abandoned (leave sid v) = false)).
  - by apply sublist_skip.
  - by apply sublist_cons.
Qed.

Lemma wf_swept sid rooms : JsMap.wf rooms → JsMap.wf (swept sid rooms).
Proof. unfold JsMap.wf. intros H. eapply sublist_NoDup; [done | apply keys_swept]. Qed.

Lemma leave_forgets sid room : ¬ references sid (leave sid room).
Proof.
  unfold references, leave; simpl. intros [Hh|Hv].
  - destruct (decide (host room = Some sid)); congruence.
  - apply list_elem_of_filter in Hv as [Hne _]. done.
Qed.

Lemma filter_all {A} (P : A → Prop) `{∀ x, Decision (P x)} (l : list A) :
  (∀ x, x ∈ l → P x) → filter P l = l.
Proof.
  induction l as [|x l IH]; intros Hall; [done|].
  rewrite filter_cons_True by (apply Hall, elem_of_cons; by left).
  f_equal. apply IH. intros y Hy. apply Hall, elem_of_cons. by right.
Qed.

Lemma leave_absent sid room : ¬ references sid room → leave sid room = room.
Proof.
  unfold references, leave. intros Hno. destruct room as [h vs]; simpl in *.
  rewrite decide_False by tauto. f_equal.
  apply filter_all. intros x Hx ->. tauto.
Qed.

(** Sweeping for a socket no room holds, in a registry without a room to
    drop, returns the registry as it was and emits nothing. *)
Lemma swept_absent sid rooms :
  (∀ r room, (r, room) ∈ rooms → ¬ references sid room ∧ abandoned room = false) →
  swept sid rooms = rooms ∧ rooms ≫= host_left sid = [].
Proof.
  unfold swept. induction rooms as [|[k v] rooms IH]; intros Hall; [done|].
  destruct (Hall k v) as [Hno Hab]; [apply elem_of_cons; by left|].
  destruct IH as [IH1 IH2].
  { intros r room Hin. apply (Hall r room), elem_of_cons. by right. }
  cbn [fmap list_fmap prod_map fst snd id mbind list_bind]. split.
  - rewrite filter_cons. cbn [snd]. rewrite (leave_absent _ _ Hno).
    rewrite decide_True by done. f_equal. exact IH1.
  - unfold host_left at 1. cbn [fst snd].
    rewrite decide_False by (unfold references in Hno; tauto).
    exact IH2.
Qed.

Lemma on_disconnect_twice sid rooms :
  JsMap.wf rooms →
  on_disconnect sid (on_disconnect sid rooms).1 = ((on_disconnect sid rooms).1, []).
Proof.
  intros Hwf. rewrite (on_disconnect_eq sid rooms Hwf). cbn [fst].
  rewrite on_disconnect_eq by (by apply wf_swept).
  destruct (swept_absent sid (swept sid rooms)) as [-> ->]; [|done].
  intros r room Hin. apply elem_swept in Hin as [Hab [room0 [_ ->]]].
  split; [apply leave_forgets | done].
Qed.

(** ** The 'join-room' handler as one [set] *)

Lemma set_set {V} (k : string) (v v' : V) (m : list (string * V)) :
  JsMap.set k v (JsMap.set k v' m) = JsMap.set k v m.
Proof.
  induction m as [|[k0 v0] m IH]; simpl.
  - by rewrite decide_True.
  - destruct (decide (k = k0)) as [->|Hne]; simpl.
    + by rewrite decide_True.
    + rewrite decide_False by done. by rewrite IH.
Qed.

Lemma elem_set {V} (k r : string) (v x : V) (m : list (string * V)) :
  (r, x) ∈ JsMap.set k v m → (r = k ∧ x = v) ∨ (r, x) ∈ m.
Proof.
  induction m as [|[k0 v0] m IH]; simpl.
  - intros H. apply list_elem_of_singleton in H as [= -> ->]. by left.
  - destruct (decide (k = k0)) as [->|Hne]; intros H;
      apply elem_of_cons in H as [H|H].
    + injection H as -> ->. by left.
    + right. apply elem_of_cons. by right.
    + right. apply elem_of_cons. by left.
    + destruct (IH H) as [?|?]; [by left | right; apply elem_of_cons; by right].
Qed.

Lemma on_join_room_rooms sid roomId role rooms :
  (on_join_room sid roomId role rooms).1
  = JsMap.set roomId (room_after_join sid role (JsMap.get roomId rooms)) rooms.
Proof.
  unfold on_join_room, room_after_join, JsMap.has.
  destruct (JsMap.get roomId rooms) as [room|] eqn:Hget; simpl.
  - rewrite Hget. by destruct (is_host role).
  - rewrite JsMapFacts.get_set_eq. destruct (is_host role); simpl; by rewrite set_set.
Qed.

(** The branch of [on_join_room] for a missing room is dead code. *)
Lemma on_join_room_finds_room roomId rooms :
  is_Some (JsMap.get roomId
             (if JsMap.has roomId rooms then rooms
              else JsMap.set roomId (mkRoom None []) rooms)).
Proof.
  unfold JsMap.has. destruct (JsMap.get roomId rooms) eqn:E.
  - rewrite E. eauto.
  - rewrite JsMapFacts.get_set_eq. eauto.
Qed.

(** ** Every registry the handlers build is a [Map] *)

Lemma wf_handle sid e rooms : JsMap.wf rooms → JsMap.wf (handle sid e rooms).1.
Proof.
  intros Hwf. destruct e as [roomId role|roomId to signal|data|]; simpl.
  - rewrite on_join_room_rooms. by apply JsMapFacts.wf_set.
  - done.
  - unfold on_frame. by destruct (truthy _).
  - rewrite on_disconnect_eq by done. by apply wf_swept.
Qed.

Lemma run_snoc evs sid e rooms :
  run (evs ++ [(sid, e)]) rooms = (handle sid e (run evs rooms)).1.
Proof. unfold run. by rewrite foldl_app. Qed.

Lemma wf_run evs rooms : JsMap.wf rooms → JsMap.wf (run evs rooms).
Proof.
  revert rooms. induction evs as [|[sid e] evs IH]; intros rooms Hwf; [done|].
  simpl. apply IH. by apply wf_handle.
Qed.

Lemma wf_registry_after evs : JsMap.wf (registry_after evs).
Proof. apply wf_run, JsMapFacts.wf_nil. Qed.

(** ** Invariants of the registry *)

Lemma empty_room_abandoned room : empty_room room → abandoned room = true.
Proof. destruct room as [h vs]. unfold empty_room, abandoned. simpl. by intros [-> ->]. Qed.

Lemma room_after_join_not_empty sid role old : ¬ empty_room (room_after_join sid role old).
Proof.
  unfold room_after_join, empty_room. destruct (is_host role); simpl.
  - intros [? _]. done.
  - intros [_ H]. by apply app_nil in H as [_ ?].
Qed.

Lemma handle_no_empty_room sid e rooms :
  JsMap.wf rooms →
  (∀ r room, (r, room) ∈ rooms → ¬ empty_room room) →
  ∀ r room, (r, room) ∈ (handle sid e rooms).1 → ¬ empty_room room.
Proof.
  intros Hwf Hinv r room. destruct e as [roomId role|roomId to signal|data|]; simpl.
  - rewrite on_join_room_rooms. intros Hin.
    apply elem_set in Hin as [[_ ->]|Hin]; [apply room_after_join_not_empty | eauto].
  - eauto.
  - unfold on_frame. destruct (truthy _); simpl; eauto.
  - rewrite on_disconnect_eq by done. simpl. intros Hin.
    apply elem_swept in Hin as [Hab _]. intros He.
    apply empty_room_abandoned in He. congruence.
Qed.

Lemma run_no_empty_room evs : ∀ rooms,
  JsMap.wf rooms →
  (∀ r room, (r, room) ∈ rooms → ¬ empty_room room) →
  ∀ r room, (r, room) ∈ run evs rooms → ¬ empty_room room.
Proof.
  induction evs as [|[sid e] evs IH]; intros rooms Hwf Hinv; [done|].
  simpl. apply IH; [by apply wf_handle | by apply handle_no_empty_room].
Qed.

(** The room of a sole viewer goes when that viewer disconnects. *)
Lemma sole_viewer_room_deleted v r rooms :
  JsMap.wf rooms →
  JsMap.get r rooms = Some (mkRoom None [v]) →
  JsMap.get r (on_disconnect v rooms).1 = None.
Proof.
  intros Hwf Hget. rewrite on_disconnect_eq by done. simpl.
  apply JsMapFacts.get_None. intros Hin.
  apply list_elem_of_fmap in Hin as [[r' room] [Hr Hin]]. simpl in Hr. subst r'.
  apply elem_swept in Hin as [Hab [room0 [Hin0 ->]]].
  apply (JsMapFacts.elem_get _ _ _ Hwf) in Hin0.
  assert (room0 = mkRoom None [v]) as -> by congruence.
  unfold leave, abandoned in Hab. simpl in Hab.
  rewrite filter_cons, decide_False in Hab by (intros H; by apply H).
  by rewrite filter_nil in Hab.
Qed.

Lemma joined_false sid rooms :
  joined sid rooms = false → ∀ r room, (r, room) ∈ rooms → ¬ references sid room.
Proof.
  unfold joined, references. induction rooms as [|[k v] rooms IH]; simpl.
  - intros _ r room Hin. by apply elem_of_nil in Hin.
  - intros Hj r room Hin. apply orb_false_iff in Hj as [Hhere Hrest].
    apply elem_of_cons in Hin as [[= -> ->]|Hin]; [|by eapply IH].
    apply orb_false_iff in Hhere as [Hh Hv].
    apply bool_decide_eq_false in Hh, Hv. tauto.
Qed.

Lemma join_keeps_roles_spec sid roomId role rooms :
  join_keeps_roles sid roomId role rooms = true ↔
  ∀ room, JsMap.get roomId rooms = Some room →
    (sid ∉ viewers room) ∧ (is_host role = false → host room ≠ Some sid).
Proof.
  unfold join_keeps_roles. destruct (JsMap.get roomId rooms) as [room|].
  - destruct (is_host role).
    + rewrite negb_true_iff, bool_decide_eq_false. split.
      * intros Hv room' [= <-]. by split.
      * intros H. by destruct (H room eq_refl).
    + rewrite andb_true_iff, !negb_true_iff, !bool_decide_eq_false. split.
      * intros [Hh Hv] room' [= <-]. by split.
      * intros H. destruct (H room eq_refl) as [Hv Hh]. split; [by apply Hh | done].
  - split; [by intros _ room' | done].
Qed.

Lemma room_after_join_exclusive sid role (old : option Room) :
  (∀ room, old = Some room → roles_exclusive room) →
  roles_exclusive (room_after_join sid role old) ↔
  ∀ room, old = Some room →
    (sid ∉ viewers room) ∧ (is_host role = false → host room ≠ Some sid).
Proof.
  intros Hold. unfold room_after_join, roles_exclusive.
  destruct old as [room|]; simpl.
  - destruct (Hold room eq_refl) as [Hhost Hnd].
    destruct (is_host role); simpl.
    + split.
      * intros [Hsid _] room' [= <-]. split; [by apply Hsid | done].
      * intros H. destruct (H room eq_refl) as [Hv _].
        split; [|done]. by intros s [= <-].
    + split.
      * intros [Hh Hnd'] room' [= <-]. apply NoDup_app in Hnd' as (_ & Hdis & _). split.
        -- intros Hin. apply (Hdis sid Hin). by apply list_elem_of_singleton.
        -- intros _ Hsid. apply (Hh sid Hsid). apply elem_of_app. right.
           by apply list_elem_of_singleton.
      * intros H. destruct (H room eq_refl) as [Hv Hh]. split.
        -- intros s Hs Hin. apply elem_of_app in Hin as [Hin|Hin]; [by eapply Hhost|].
           apply list_elem_of_singleton in Hin as ->. by apply Hh.
        -- apply NoDup_app. split_and!; [done| |apply NoDup_singleton].
           intros x Hx Hx'. by apply list_elem_of_singleton in Hx' as ->.
  - split; [by intros _ room'|]. intros _. destruct (is_host role); simpl.
    + split; [|apply NoDup_nil_2]. intros s _. apply not_elem_of_nil.
    + split; [done | apply NoDup_singleton].
Qed.

Lemma leave_exclusive sid room : roles_exclusive room → roles_exclusive (leave sid room).
Proof.
  unfold roles_exclusive, leave. intros [Hhost Hnd]; simpl. split.
  - intros s Hs Hin. apply list_elem_of_filter in Hin as [_ Hin].
    destruct (decide (host room = Some sid)); [done|]. by eapply Hhost.
  - by apply NoDup_filter.
Qed.

Lemma handle_exclusive sid e rooms :
  JsMap.wf rooms →
  match e with
  | JoinRoom roomId role => join_keeps_roles sid roomId role rooms = true
  | _ => True
  end →
  (∀ r room, (r, room) ∈ rooms → roles_exclusive room) →
  ∀ r room, (r, room) ∈ (handle sid e rooms).1 → roles_exclusive room.
Proof.
  intros Hwf Hfresh Hinv r room. destruct e as [roomId role|roomId to signal|data|]; simpl.
  - rewrite on_join_room_rooms. intros Hin.
    apply elem_set in Hin as [[_ ->]|Hin]; [|eauto].
    apply room_after_join_exclusive.
    + intros old Hold. apply JsMapFacts.get_Some_elem in Hold. eauto.
    + by apply join_keeps_roles_spec.
  - eauto.
  - unfold on_frame. destruct (truthy _); simpl; eauto.
  - rewrite on_disconnect_eq by done. simpl. intros Hin.
    apply elem_swept in Hin as [_ [room0 [Hin ->]]]. apply leave_exclusive. eauto.
Qed.

(** ** The server, step by step *)

Lemma step_signal st sid (roomId : JsVal) to signal :
  step st (On sid (Signal roomId to signal))
  = (st, [mkDelivery (targets to (srv_adapter st)) "signal"
                     [JObj [("from", JStr sid); ("signal", signal)]]]).
Proof. by destruct st. Qed.

Lemma step_frame st sid data :
  step st (On sid (Frame data))
  = (st, if truthy (prop data "to")
         then [mkDelivery (targets (prop data "to") (srv_adapter st)) "frame" [JObj data]]
         else []).
Proof.
  destruct st as [rooms ad]. unfold step, handle, on_frame. cbn [srv_rooms srv_adapter].
  by destruct (truthy (prop data "to")).
Qed.

Lemma received_one c (d : Delivery) :
  c ∈ recipients d → received c [d] = [(event d, args d)].
Proof. intros Hin. unfold received. by rewrite filter_cons_True, filter_nil. Qed.

Lemma steps_snoc st ins (i : Input) : steps st (ins ++ [i]) = (step (steps st ins) i).1.
Proof. unfold steps. by rewrite foldl_app. Qed.


(** ** Who is in which socket.io room *)

Lemma sockets_in_add c r sid (room : string) ad :
  c ∈ sockets_in r (adapter_add sid room ad) ↔ (r = room ∧ c = sid) ∨ c ∈ sockets_in r ad.
Proof.
  unfold adapter_add, sockets_in. destruct (decide (room = r)) as [->|Hne].
  - rewrite lookup_insert_eq. simpl. rewrite elem_of_union, elem_of_singleton.
    split; [intros [->|?]; [by left | by right] | intros [[_ ->]|?]; [by left | by right]].
  - rewrite lookup_insert_ne by done. split; [by right|]. intros [[-> _]|?]; done.
Qed.

Lemma sockets_in_del_all c r sid ad :
  c ∈ sockets_in r (adapter_del_all sid ad) ↔ c ∈ sockets_in r ad ∧ c ≠ sid.
Proof.
  unfold adapter_del_all, sockets_in. rewrite lookup_fmap.
  destruct (ad !! r) as [s|]; simpl.
  - by rewrite elem_of_difference, not_elem_of_singleton.
  - split; [intros H | intros [H _]]; by apply not_elem_of_empty in H.
Qed.

Lemma elem_all_sockets c ad : c ∈ all_sockets ad ↔ ∃ r, c ∈ sockets_in r ad.
Proof.
  unfold all_sockets, sockets_in. rewrite elem_of_union_list. split.
  - intros [X [HX Hc]]. apply list_elem_of_fmap in HX as [[r X'] [-> Hin]].
    apply elem_of_map_to_list in Hin. exists r. simpl in *. by rewrite Hin.
  - intros [r Hc]. destruct (ad !! r) as [X|] eqn:Hr; simpl in Hc;
      [|by apply not_elem_of_empty in Hc].
    exists X. split; [|done]. apply list_elem_of_fmap. exists (r, X).
    split; [done | by apply elem_of_map_to_list].
Qed.

(** [io.to(to)] selects the sockets of the rooms that [to] addresses. *)
Lemma targets_spec c (to : JsVal) ad :
  c ∈ targets to ad ↔ ∃ t, addresses to t ∧ c ∈ sockets_in t ad.
Proof.
  unfold addresses. destruct to as [| |b|t|fields|items]; simpl;
    try (split; [intros H; by apply not_elem_of_empty in H
                | intros [t [[?|[[items [? _]]|?]] _]]; done]).
  - split.
    + intros Hc. exists t. split; [by left | done].
    + intros [t' [[[= ->]|[[items [? _]]|?]] Hc]]; done.
  - destruct items as [|item items].
    + rewrite elem_all_sockets. split.
      * intros [r Hc]. exists r. split; [by right; right | done].
      * intros [r [_ Hc]]. by exists r.
    + rewrite elem_of_union_list. split.
      * intros [X [HX Hc]]. apply list_elem_of_fmap in HX as [v [-> Hv]].
        destruct v as [| |b|t|fields'|items']; simpl in Hc;
          try (by apply not_elem_of_empty in Hc).
        exists t. split; [|done]. right. left. by exists (item :: items).
      * intros [t [[?|[[items' [[= <-] Hin]]|?]] Hc]]; [done| |done].
        exists (sockets_in t ad). split; [|done].
        apply list_elem_of_fmap. by exists (JStr t).
Qed.

Lemma exec_all_adapter sid (cmds : list Cmd) : ∀ ad (ds : list Delivery) c r,
  c ∈ sockets_in r
        (foldl (λ acc cmd, let '(ad', ds') := exec sid cmd acc.1 in (ad', acc.2 ++ ds'))
               (ad, ds) cmds).1 →
  c ∈ sockets_in r ad ∨ (c = sid ∧ SocketJoin r ∈ cmds).
Proof.
  induction cmds as [|cmd cmds IH]; intros ad ds c r; simpl; [by left|].
  destruct cmd as [room|ev a|room ev a|room ev a]; simpl; intros H;
    apply IH in H as [H|[-> H]];
    try (by left); try (right; split; [done | apply elem_of_cons; by right]).
  apply sockets_in_add in H as [[-> ->]|H]; [|by left].
  right. split; [done | apply elem_of_cons; by left].
Qed.

Lemma forEach_emits {V E} (P : E → Prop)
    (cb : V → string → list (string * V) → list (string * V) * list E)
    (l : list (string * V)) :
  (∀ v k m, Forall P (cb v k m).2) →
  ∀ m out, Forall P out →
    Forall P (foldl (λ acc kv, let '(m', o) := cb kv.2 kv.1 acc.1 in (m', acc.2 ++ o))
                    (m, out) l).2.
Proof.
  intros Hcb. induction l as [|[k v] l IH]; intros m out Hout; [done|].
  simpl. specialize (Hcb v k m). destruct (cb v k m) as [m' o]. simpl in *.
  apply IH. by apply Forall_app.
Qed.

(** Only 'join-room' makes a socket join a room, and the room is the one it names. *)
Lemma handle_joins sid e rooms r :
  SocketJoin r ∈ (handle sid e rooms).2 → ∃ role, e = JoinRoom r role.
Proof.
  destruct e as [roomId role|roomId to signal|data|]; simpl.
  - intros H. exists role. f_equal. revert H. unfold on_join_room.
    destruct (JsMap.get roomId _) as [room|]; [destruct (is_host role)|]; simpl;
      try destruct (host room) as [h|]; simpl; try destruct (negb _);
      intros Hin;
      repeat (apply elem_of_cons in Hin as [Hin|Hin]; [congruence|]);
      by apply elem_of_nil in Hin.
  - intros H. apply list_elem_of_singleton in H. discriminate.
  - unfold on_frame. destruct (truthy (prop data "to")); simpl; intros H.
    + apply list_elem_of_singleton in H. discriminate.
    + by apply elem_of_nil in H.
  - intros H. exfalso.
    assert (Forall (λ cmd, ∀ r', cmd ≠ SocketJoin r') (on_disconnect sid rooms).2) as Hall.
    { unfold on_disconnect, JsMap.forEach. apply forEach_emits; [|done].
      intros v k m. rewrite disconnect_room_eq. unfold host_left. simpl.
      case_decide; [|done]. apply Forall_singleton. discriminate. }
    rewrite Forall_forall in Hall. by apply (Hall _ H r).
Qed.

(** A socket is in a socket.io room only if the room bears its own id and
    it has connected, or it asked to join a room of that name. *)
Lemma sockets_in_steps ins c r :
  c ∈ sockets_in r (srv_adapter (steps init ins)) →
  (c = r ∧ Connection c ∈ ins) ∨ ∃ role, On c (JoinRoom r role) ∈ ins.
Proof.
  induction ins as [|i ins IH] using rev_ind.
  - simpl. unfold sockets_in. rewrite lookup_empty. simpl. set_solver.
  - rewrite steps_snoc. intros H.
    assert (c ∈ sockets_in r (srv_adapter (steps init ins)) ∨
            (i = Connection c ∧ c = r) ∨ ∃ role, i = On c (JoinRoom r role)) as Hcase.
    { revert H. generalize (steps init ins). intros [rooms ad].
      destruct i as [sid|sid e]; simpl.
      - intros H. apply sockets_in_add in H as [[-> ->]|H]; [right; left; done | by left].
      - destruct (handle sid e rooms) as [rooms' cmds] eqn:Hh.
        unfold exec_all.
        match goal with |- context [foldl ?f ?a cmds] => destruct (foldl f a cmds) as [ad' ds] eqn:Hf end.
        simpl. intros H.
        assert (c ∈ sockets_in r (ad', ds).1) as H' by done. rewrite <- Hf in H'.
        apply exec_all_adapter in H' as [H'|[-> Hj]].
        + left. destruct e; try done. by apply sockets_in_del_all in H' as [? _].
        + right. right. assert (cmds = (handle sid e rooms).2) as -> by (by rewrite Hh).
          apply handle_joins in Hj as [role ->]. by exists role. }
    destruct Hcase as [Hold|[[-> ->]|[role ->]]].
    + destruct (IH Hold) as [[-> Hc]|[role Hj]].
      * left. split; [done|]. apply elem_of_app. by left.
      * right. exists role. apply elem_of_app. by left.
    + left. split; [done|]. apply elem_of_app. right. by apply list_elem_of_singleton.
    + right. exists role. apply elem_of_app. right. by apply list_elem_of_singleton.
Qed.

Lemma adapter_del_all_twice sid ad :
  adapter_del_all sid (adapter_del_all sid ad) = adapter_del_all sid ad.
Proof.
  unfold adapter_del_all. rewrite <- map_fmap_compose. apply map_fmap_ext.
  intros r s _. simpl. apply set_eq. intros x.
  rewrite !elem_of_difference. tauto.
Qed.

Lemma exec_all_keeps_rooms sid (cmds : list Cmd) : ∀ ad (ds : list Delivery),
  Forall (λ cmd, ∀ r, cmd ≠ SocketJoin r) cmds →
  (foldl (λ acc cmd, let '(ad', ds') := exec sid cmd acc.1 in (ad', acc.2 ++ ds'))
         (ad, ds) cmds).1 = ad.
Proof.
  induction cmds as [|cmd cmds IH]; intros ad ds Hall; [done|].
  apply Forall_cons in Hall as [Hcmd Hall]. simpl.
  destruct cmd as [room|ev a|room ev a|room ev a]; simpl; try by apply IH.
  by destruct (Hcmd room).
Qed.

Lemma on_disconnect_never_joins sid rooms :
  Forall (λ cmd, ∀ r, cmd ≠ SocketJoin r) (on_disconnect sid rooms).2.
Proof.
  unfold on_disconnect, JsMap.forEach. apply forEach_emits; [|done].
  intros v k m. rewrite disconnect_room_eq. unfold host_left. simpl.
  case_decide; [|done]. apply Forall_singleton. discriminate.
Qed.

Lemma step_disconnect st sid :
  (step st (On sid Disconnect)).1
  = mkServer (on_disconnect sid (srv_rooms st)).1 (adapter_del_all sid (srv_adapter st)).
Proof.
  destruct st as [rooms ad]. unfold step, handle. cbn [srv_rooms srv_adapter].
  pose proof (on_disconnect_never_joins sid rooms) as Hnj.
  destruct (on_disconnect sid rooms) as [rooms' cmds]. cbn [fst snd] in *.
  pose proof (exec_all_keeps_rooms sid cmds (adapter_del_all sid ad) [] Hnj) as Hk.
  unfold exec_all. destruct (foldl _ _ cmds) as [ad' ds]. simpl in Hk. by subst.
Qed.

Lemma step_disconnect_twice st sid :
  JsMap.wf (srv_rooms st) →
  step (step st (On sid Disconnect)).1 (On sid Disconnect)
  = ((step st (On sid Disconnect)).1, []).
Proof.
  intros Hwf. rewrite step_disconnect. unfold step, handle. cbn [srv_rooms srv_adapter].
  rewrite on_disconnect_twice by done. rewrite adapter_del_all_twice. reflexivity.
Qed.

(** ** The scenarios of the specification *)

Example scenario_C :
  registry_after [("h", JoinRoom "r1" (JStr "host")); ("v", JoinRoom "r1" (JStr "viewer"));
                  ("h", Disconnect)]
  = [("r1", mkRoom None ["v"])].
Proof. reflexivity. Qed.

(** Scenario C on the wire: the viewer is told that the host has gone. *)
Example scenario_C_notice :
  let st := steps init [Connection "h"; Connection "v";
                        On "h" (JoinRoom "r1" (JStr "host"));
                        On "v" (JoinRoom "r1" (JStr "viewer"))] in
  received "v" (step st (On "h" Disconnect)).2 = [("host-disconnected", [])].
Proof. vm_compute. reflexivity. Qed.

(** Scenario B on the wire: the viewer is acknowledged, the host is told. *)
Example scenario_B :
  let st := steps init [Connection "h"; Connection "v"; On "h" (JoinRoom "r1" (JStr "host"))] in
  let ds := (step st (On "v" (JoinRoom "r1" (JStr "viewer")))).2 in
  received "v" ds = [("joined", [JObj [("role", JStr "viewer"); ("roomId", JStr "r1")]])] ∧
  received "h" ds = [("viewer-joined", [JObj [("viewerId", JStr "v")]])].
Proof. split; vm_compute; reflexivity. Qed.

(** A socket that never joined a room relays like any other. *)
Example unjoined_sender_relays :
  let st := steps init [Connection "h"; Connection "x"; On "h" (JoinRoom "r1" (JStr "host"))] in
  joined "x" (srv_rooms st) = false ∧
  received "h" (step st (On "x" (Signal JUndefined (JStr "h") (JStr "hi")))).2
    = [("signal", [JObj [("from", JStr "x"); ("signal", JStr "hi")]])].
Proof. split; vm_compute; reflexivity. Qed.

(** ** One host per room *)

(** C1: whatever events came before, the registry holds at most one record
    per room id, hence at most one host per room; and a 'join-room' with
    role 'host' leaves the joining socket as that single host, replacing
    whoever was host, with the viewers and every other room untouched. *)
Theorem host_join_replaces_host evs sid roomId :
  let rooms := registry_after evs in
  let rooms' := (on_join_room sid roomId (JStr "host") rooms).1 in
  (∀ r a b, (r, a) ∈ rooms → (r, b) ∈ rooms → host a = host b) ∧
  (∀ r a b, (r, a) ∈ rooms' → (r, b) ∈ rooms' → host a = host b) ∧
  (∃ room', JsMap.get roomId rooms' = Some room' ∧ host room' = Some sid ∧
            viewers room' = viewers (default (mkRoom None []) (JsMap.get roomId rooms))) ∧
  (∀ r, r ≠ roomId → JsMap.get r rooms' = JsMap.get r rooms).
Proof.
  intros rooms rooms'.
  assert (JsMap.wf rooms) as Hwf by apply wf_registry_after.
  assert (JsMap.wf rooms') as Hwf'.
  { apply (wf_handle sid (JoinRoom roomId (JStr "host"))), Hwf. }
  assert (∀ m : Rooms, JsMap.wf m →
            ∀ r a b, (r, a) ∈ m → (r, b) ∈ m → host a = host b) as Hone.
  { intros m Hm r a b Ha Hb.
    apply (JsMapFacts.elem_get _ _ _ Hm) in Ha, Hb. congruence. }
  split_and!; [by apply Hone | by apply Hone | |].
  - subst rooms'. rewrite on_join_room_rooms, JsMapFacts.get_set_eq.
    eexists; split; [done|]. by unfold room_after_join.
  - intros r Hr. subst rooms'. rewrite on_join_room_rooms.
    by apply JsMapFacts.get_set_ne.
Qed.

(** ** Nothing of a socket is left after its 'disconnect' *)

(** C2: once the 'disconnect' of a socket has been handled, no room of the
    registry has it as host or among its viewers. *)
Theorem disconnect_forgets_socket sid rooms r room :
  JsMap.wf rooms →
  (r, room) ∈ (on_disconnect sid rooms).1 →
  host room ≠ Some sid ∧ sid ∉ viewers room.
Proof.
  intros Hwf Hin. rewrite on_disconnect_eq in Hin by done. simpl in Hin.
  apply elem_swept in Hin as [_ [room0 [_ ->]]].
  pose proof (leave_forgets sid room0) as Hno. unfold references in Hno.
  split; intros H; apply Hno; [by left | by right].
Qed.

Lemma disconnect_forgets_socket_witness :
  ("r1", mkRoom None ["v"]) ∈ (on_disconnect "h" [("r1", mkRoom (Some "h") ["v"; "h"])]).1 ∧
  None ≠ Some "h" ∧ "h" ∉ ["v"].
Proof.
  assert (JsMap.wf [("r1", mkRoom (Some "h") ["v"; "h"])]) as Hwf.
  { unfold JsMap.wf. apply (bool_decide_unpack _). vm_compute. exact I. }
  assert (("r1", mkRoom None ["v"]) ∈ (on_disconnect "h" [("r1", mkRoom (Some "h") ["v"; "h"])]).1) as Hin.
  { vm_compute. apply list_elem_of_singleton. reflexivity. }
  split; [exact Hin|].
  exact (disconnect_forgets_socket "h" _ "r1" (mkRoom None ["v"]) Hwf Hin).
Defined.

(** ** Host and viewers of a room *)

(** C3, as the code has it: no room ever has its host among its viewers
    or a viewer listed twice, exactly when no socket joins as host a room
    that lists it as viewer and no socket joins as viewer a room that has
    it as host or viewer.  The states along a trace are the registries
    after its prefixes. *)
Theorem roles_exclusive_iff_joins_keep_roles evs :
  joins_keep_roles [] evs = true ↔
  ∀ evs', evs' `prefix_of` evs →
    ∀ r room, (r, room) ∈ registry_after evs' →
      (∀ sid, host room = Some sid → sid ∉ viewers room) ∧ NoDup (viewers room).
Proof.
  unfold registry_after.
  assert (∀ evs rooms,
            JsMap.wf rooms →
            (∀ r room, (r, room) ∈ rooms → roles_exclusive room) →
            (joins_keep_roles rooms evs = true ↔
             ∀ evs', evs' `prefix_of` evs →
               ∀ r room, (r, room) ∈ run evs' rooms → roles_exclusive room)) as Hgen.
  { clear. induction evs as [|[sid e] evs IH]; intros rooms Hwf Hinv.
    - split; [|done]. intros _ evs' Hpre. by apply prefix_nil_inv in Hpre as ->.
    - cbn [joins_keep_roles]. rewrite andb_true_iff.
      assert (match e with
              | JoinRoom roomId role => join_keeps_roles sid roomId role rooms = true
              | _ => True
              end ↔
              ∀ r room, (r, room) ∈ (handle sid e rooms).1 → roles_exclusive room) as Hhere.
      { split; [intros Hok; by apply handle_exclusive|].
        intros Hafter. destruct e as [roomId role| | |]; try done.
        apply join_keeps_roles_spec.
        apply (room_after_join_exclusive sid role (JsMap.get roomId rooms)).
        - intros old Hold. apply JsMapFacts.get_Some_elem in Hold. eauto.
        - apply (Hafter roomId). simpl. rewrite on_join_room_rooms.
          apply JsMapFacts.get_Some_elem, JsMapFacts.get_set_eq. }
      split.
      + intros [Hok Hrest] evs' Hpre. destruct evs' as [|se evs']; [done|].
        apply prefix_cons_inv_1 in Hpre as Heq. apply prefix_cons_inv_2 in Hpre. subst se.
        assert (∀ r room, (r, room) ∈ (handle sid e rooms).1 → roles_exclusive room) as Hinv'.
        { apply Hhere. by destruct e. }
        cbn [run foldl fst snd].
        apply (proj1 (IH (handle sid e rooms).1 (wf_handle sid e rooms Hwf) Hinv') Hrest evs' Hpre).
      + intros Hall.
        assert (∀ r room, (r, room) ∈ (handle sid e rooms).1 → roles_exclusive room) as Hinv'.
        { apply (Hall [(sid, e)]). by apply prefix_cons, prefix_nil. }
        split; [apply Hhere in Hinv'; by destruct e|].
        apply (IH (handle sid e rooms).1 (wf_handle sid e rooms Hwf) Hinv').
        intros evs' Hpre. apply (Hall ((sid, e) :: evs')). by apply prefix_cons. }
  apply (Hgen evs []); [apply JsMapFacts.wf_nil|].
  intros r room Hin. by apply elem_of_nil in Hin.
Qed.

Lemma roles_exclusive_iff_joins_keep_roles_witness :
  let evs := [ ("h", JoinRoom "r1" (JStr "host")); ("v", JoinRoom "r1" (JStr "viewer"));
               ("h", JoinRoom "r2" (JStr "viewer")); ("h", JoinRoom "r1" (JStr "host"));
               ("v", Disconnect); ("v", JoinRoom "r1" (JStr "viewer")) ] in
  joins_keep_roles [] evs = true ∧
  registry_after evs = [("r1", mkRoom (Some "h") ["v"]); ("r2", mkRoom None ["h"])] ∧
  ((∀ sid, Some "h" = Some sid → sid ∉ ["v"]) ∧ NoDup ["v"]).
Proof.
  intros evs.
  assert (joins_keep_roles [] evs = true) as Hok by (vm_compute; reflexivity).
  split; [exact Hok|]. split; [reflexivity|].
  refine (proj1 (roles_exclusive_iff_joins_keep_roles evs) Hok evs _ "r1"
                (mkRoom (Some "h") ["v"]) _).
  - done.
  - vm_compute. apply elem_of_cons. left. reflexivity.
Defined.

(** C3 as stated fails: one socket that joins "r1" as host and then twice as
    viewer is host and viewer at once, and is listed twice. *)
Lemma rejoin_overlaps_roles :
  let evs := [ ("a", JoinRoom "r1" (JStr "host")); ("a", JoinRoom "r1" (JStr "viewer"));
               ("a", JoinRoom "r1" (JStr "viewer")) ] in
  registry_after evs = [("r1", mkRoom (Some "a") ["a"; "a"])] ∧
  "a" ∈ ["a"; "a"] ∧ ¬ NoDup ["a"; "a"] ∧
  ¬ roles_exclusive (mkRoom (Some "a") ["a"; "a"]).
Proof.
  intros evs.
  assert (¬ NoDup ["a"; "a"]) as Hdup.
  { intros H. apply NoDup_cons in H as [H _]. apply H, list_elem_of_singleton. reflexivity. }
  split_and!; [reflexivity | apply elem_of_cons; by left | done |].
  intros [_ H]. by apply Hdup.
Qed.

(** ** A viewer join appends *)

(** C4, as the code has it: a 'join-room' with any role other than 'host'
    puts the socket id at the end of the room's viewers, present already or
    not, and keeps the host; a room that did not exist starts empty. *)
Theorem viewer_join_appends sid roomId role rooms :
  is_host role = false →
  ∃ room', JsMap.get roomId (on_join_room sid roomId role rooms).1 = Some room' ∧
    viewers room' = viewers (default (mkRoom None []) (JsMap.get roomId rooms)) ++ [sid] ∧
    host room' = host (default (mkRoom None []) (JsMap.get roomId rooms)).
Proof.
  intros Hrole. rewrite on_join_room_rooms, JsMapFacts.get_set_eq.
  eexists; split; [done|]. unfold room_after_join. by rewrite Hrole.
Qed.

Lemma viewer_join_appends_witness :
  ∃ room', JsMap.get "r1" (on_join_room "a" "r1" (JStr "viewer") [("r1", mkRoom (Some "h") ["b"])]).1
           = Some room' ∧
    viewers room' = ["b"] ++ ["a"] ∧ host room' = Some "h".
Proof.
  exact (viewer_join_appends "a" "r1" (JStr "viewer") [("r1", mkRoom (Some "h") ["b"])] eq_refl).
Defined.

(** C4 as stated fails: socket "a", already a viewer of "r1", joins "r1" as
    viewer once more and is listed twice. *)
Lemma viewer_join_twice_duplicates :
  registry_after [("a", JoinRoom "r1" (JStr "viewer"))] = [("r1", mkRoom None ["a"])] ∧
  (on_join_room "a" "r1" (JStr "viewer") [("r1", mkRoom None ["a"])]).1
    = [("r1", mkRoom None ["a"; "a"])] ∧
  ["a"; "a"] ≠ ["a"].
Proof. split_and!; [reflexivity | reflexivity | discriminate]. Qed.

(** ** No empty room stays *)

(** C5: after any sequence of events the registry holds no room with
    [host = None] and no viewer; and when the only viewer of a host-less
    room disconnects, the room id is gone from the registry. *)
Theorem no_empty_room_persists evs :
  let rooms := registry_after evs in
  (∀ r room, (r, room) ∈ rooms → ¬ (host room = None ∧ viewers room = [])) ∧
  (∀ r room, JsMap.get r rooms = Some room → ¬ empty_room room) ∧
  (∀ r v, JsMap.get r rooms = Some (mkRoom None [v]) →
          JsMap.get r (on_disconnect v rooms).1 = None ∧
          JsMap.get r (registry_after (evs ++ [(v, Disconnect)])) = None).
Proof.
  intros rooms.
  assert (∀ r room, (r, room) ∈ rooms → ¬ empty_room room) as Hinv.
  { apply run_no_empty_room; [apply JsMapFacts.wf_nil|].
    intros r room Hin. by apply elem_of_nil in Hin. }
  split_and!.
  - exact Hinv.
  - intros r room Hget. apply (Hinv r). by apply JsMapFacts.get_Some_elem.
  - intros r v Hget.
    assert (JsMap.get r (on_disconnect v rooms).1 = None) as Hgone.
    { apply sole_viewer_room_deleted; [apply wf_registry_after | done]. }
    split; [done|]. unfold registry_after. by rewrite run_snoc.
Qed.

(** ** The relay does not look at rooms *)

(** C6, as the code has it: a 'signal' or 'frame' goes to the sockets of
    the socket.io rooms that its [to] addresses and to no other.  [to] is
    the name of a room, or an array of names, and the empty array
    addresses every room; a connection is in a room when the room bears
    its id or when it joined a room of that name.  The registry rooms of
    the sender and of the target are not looked at. *)
Theorem relay_reaches_only_addressed ins sid e to (d : Delivery) c :
  relay_to e = Some to →
  d ∈ (step (steps init ins) (On sid e)).2 →
  c ∈ recipients d →
  ∃ t, addresses to t ∧
       ((c = t ∧ Connection c ∈ ins) ∨ ∃ role, On c (JoinRoom t role) ∈ ins).
Proof.
  intros Hto Hd Hc.
  assert (c ∈ targets to (srv_adapter (steps init ins))) as Hin.
  { destruct e as [roomId role|roomId to' signal|data|]; simpl in Hto; try done.
    - injection Hto as ->. rewrite step_signal in Hd. simpl in Hd.
      apply list_elem_of_singleton in Hd as ->. done.
    - injection Hto as <-. rewrite step_frame in Hd. simpl in Hd.
      destruct (truthy (prop data "to")); [|by apply elem_of_nil in Hd].
      apply list_elem_of_singleton in Hd as ->. done. }
  apply targets_spec in Hin as [t [Haddr Hin]].
  exists t. split; [done|]. by apply sockets_in_steps.
Qed.

Lemma relay_reaches_only_addressed_witness :
  let ins := [Connection "h1"; Connection "h2"; Connection "h3";
              On "h1" (JoinRoom "r1" (JStr "host")); On "h2" (JoinRoom "r2" (JStr "host"))] in
  ∃ t, addresses (JArr [JStr "h2"; JStr "h3"]) t ∧
       (("h3" = t ∧ Connection "h3" ∈ ins) ∨ ∃ role, On "h3" (JoinRoom t role) ∈ ins).
Proof.
  intros ins.
  refine (relay_reaches_only_addressed ins "h1"
            (Signal (JStr "r1") (JArr [JStr "h2"; JStr "h3"]) (JStr "offer"))
            (JArr [JStr "h2"; JStr "h3"])
            (mkDelivery (targets (JArr [JStr "h2"; JStr "h3"]) (srv_adapter (steps init ins)))
                        "signal" [JObj [("from", JStr "h1"); ("signal", JStr "offer")]])
            "h3" eq_refl _ _).
  - rewrite step_signal. apply list_elem_of_singleton. reflexivity.
  - vm_compute. reflexivity.
Defined.

(** C6 as stated fails: "h1" is host of "r1" only and "h2" is host of "r2"
    only, and still the 'signal' and the 'frame' that "h1" addresses to
    "h2" are delivered to "h2". *)
Lemma relay_crosses_rooms :
  let st := steps init [Connection "h1"; Connection "h2";
                        On "h1" (JoinRoom "r1" (JStr "host"));
                        On "h2" (JoinRoom "r2" (JStr "host"))] in
  srv_rooms st = [("r1", mkRoom (Some "h1") []); ("r2", mkRoom (Some "h2") [])] ∧
  member "h1" "r1" (srv_rooms st) ∧ ¬ member "h1" "r2" (srv_rooms st) ∧
  member "h2" "r2" (srv_rooms st) ∧ ¬ member "h2" "r1" (srv_rooms st) ∧
  received "h2" (step st (On "h1" (Signal (JStr "r1") (JStr "h2") (JStr "offer")))).2
    = [("signal", [JObj [("from", JStr "h1"); ("signal", JStr "offer")]])] ∧
  received "h2" (step st (On "h1" (Frame [("to", JStr "h2"); ("data", JStr "AAAA")]))).2
    = [("frame", [JObj [("to", JStr "h2"); ("data", JStr "AAAA")]])].
Proof.
  intros st.
  assert (srv_rooms st = [("r1", mkRoom (Some "h1") []); ("r2", mkRoom (Some "h2") [])])
    as Hrooms by reflexivity.
  rewrite Hrooms. unfold member, references.
  split_and!; [reflexivity | | | | | vm_compute; reflexivity | vm_compute; reflexivity].
  - exists (mkRoom (Some "h1") []). split; [reflexivity | by left].
  - intros [room [Hget [Hh|Hv]]]; vm_compute in Hget; injection Hget as <-;
      [discriminate | by apply elem_of_nil in Hv].
  - exists (mkRoom (Some "h2") []). split; [reflexivity | by left].
  - intros [room [Hget [Hh|Hv]]]; vm_compute in Hget; injection Hget as <-;
      [discriminate | by apply elem_of_nil in Hv].
Qed.

(** An empty array for [to] names no room, and socket.io then selects
    every socket: the frame reaches a socket that shares no room with the
    sender and was not named. *)
Example frame_to_no_room_reaches_all :
  let st := steps init [Connection "h1"; Connection "h2";
                        On "h1" (JoinRoom "r1" (JStr "host"));
                        On "h2" (JoinRoom "r2" (JStr "host"))] in
  received "h2" (step st (On "h1" (Frame [("to", JArr []); ("data", JStr "AAAA")]))).2
  = [("frame", [JObj [("to", JArr []); ("data", JStr "AAAA")]])].
Proof. vm_compute. reflexivity. Qed.

(** ** A frame goes out as it came in *)

(** C7, as the code has it: the socket named by a truthy [to] gets one
    'frame' packet whose argument is the object the sender passed, as it
    is; its [from] is whatever the sender put there, if anything. *)
Theorem frame_relayed_as_sent st sid data t :
  prop data "to" = JStr t →
  t ≠ "" →
  connected t st →
  received t (step st (On sid (Frame data))).2 = [("frame", [JObj data])].
Proof.
  intros Hto Hne Hconn. rewrite step_frame, Hto. cbn [snd truthy].
  destruct (String.eqb_spec t "") as [->|_]; [done|]. cbn [negb].
  by rewrite received_one.
Qed.

Lemma frame_relayed_as_sent_witness :
  let st := steps init [Connection "h1"; Connection "v1";
                        On "h1" (JoinRoom "r1" (JStr "host"));
                        On "v1" (JoinRoom "r1" (JStr "viewer"))] in
  let data := [("to", JStr "v1"); ("data", JStr "/9j/4AAQSkZJRg==")] in
  received "v1" (step st (On "h1" (Frame data))).2 = [("frame", [JObj data])].
Proof.
  intros st data.
  refine (frame_relayed_as_sent st "h1" data "v1" eq_refl _ _).
  - discriminate.
  - vm_compute. reflexivity.
Defined.

(** C7 as stated fails: the frame the host sends to its viewer arrives
    without a [from]; the relay does not add the sender's id. *)
Lemma frame_has_no_from :
  let st := steps init [Connection "h1"; Connection "v1";
                        On "h1" (JoinRoom "r1" (JStr "host"));
                        On "v1" (JoinRoom "r1" (JStr "viewer"))] in
  let data := [("to", JStr "v1"); ("data", JStr "/9j/4AAQSkZJRg==")] in
  received "v1" (step st (On "h1" (Frame data))).2 = [("frame", [JObj data])] ∧
  prop data "from" = JUndefined ∧
  prop data "from" ≠ JStr "h1".
Proof. split_and!; [vm_compute; reflexivity | reflexivity | discriminate]. Qed.

(** ** A second 'disconnect' changes nothing *)

(** C8: handling 'disconnect' for a socket whose 'disconnect' has already
    been handled leaves the registry as it is and emits nothing, so that no
    'host-disconnected' goes out twice; on the wire, the server as a whole
    stays as it is and nothing is delivered. *)
Theorem disconnect_twice_is_noop st sid :
  JsMap.wf (srv_rooms st) →
  let rooms1 := (on_disconnect sid (srv_rooms st)).1 in
  let st1 := (step st (On sid Disconnect)).1 in
  on_disconnect sid rooms1 = (rooms1, []) ∧
  step st1 (On sid Disconnect) = (st1, []).
Proof.
  intros Hwf rooms1 st1. split.
  - by apply on_disconnect_twice.
  - by apply step_disconnect_twice.
Qed.

Lemma disconnect_twice_is_noop_witness :
  let st := steps init [Connection "h"; Connection "v";
                        On "h" (JoinRoom "r1" (JStr "host"));
                        On "v" (JoinRoom "r1" (JStr "viewer"));
                        On "h" (JoinRoom "r2" (JStr "viewer"))] in
  let st1 := (step st (On "h" Disconnect)).1 in
  srv_rooms st = [("r1", mkRoom (Some "h") ["v"]); ("r2", mkRoom None ["h"])] ∧
  received "v" (step st (On "h" Disconnect)).2 = [("host-disconnected", [])] ∧
  on_disconnect "h" [("r1", mkRoom None ["v"])] = ([("r1", mkRoom None ["v"])], []) ∧
  step st1 (On "h" Disconnect) = (st1, []).
Proof.
  intros st st1.
  assert (JsMap.wf (srv_rooms st)) as Hwf.
  { unfold JsMap.wf. apply (bool_decide_unpack _). vm_compute. exact I. }
  split_and!; [reflexivity | vm_compute; reflexivity | |].
  - exact (proj1 (disconnect_twice_is_noop st "h" Hwf)).
  - exact (proj2 (disconnect_twice_is_noop st "h" Hwf)).
Defined.

(** ** A signal goes out with its sender's id *)

(** C9: the socket named by [to] gets one 'signal' packet, made of the
    sender's id under [from] and, under [signal], the very value the sender
    passed. *)
Theorem signal_relayed_verbatim st sid (roomId : JsVal) t signal :
  connected t st →
  (on_signal sid roomId (JStr t) signal (srv_rooms st)).2
    = [IoTo (JStr t) "signal" [JObj [("from", JStr sid); ("signal", signal)]]] ∧
  received t (step st (On sid (Signal roomId (JStr t) signal))).2
    = [("signal", [JObj [("from", JStr sid); ("signal", signal)]])] ∧
  prop [("from", JStr sid); ("signal", signal)] "signal" = signal.
Proof.
  intros Hconn. split_and!; [done | | done].
  rewrite step_signal. cbn [snd]. by rewrite received_one.
Qed.

Lemma signal_relayed_verbatim_witness :
  let st := steps init [Connection "h"; Connection "a";
                        On "h" (JoinRoom "r1" (JStr "host"));
                        On "a" (JoinRoom "r1" (JStr "viewer"))] in
  let X := JObj [("type", JStr "answer"); ("sdp", JStr "v=0")] in
  received "h" (step st (On "a" (Signal (JStr "r1") (JStr "h") X))).2
    = [("signal", [JObj [("from", JStr "a"); ("signal", X)]])].
Proof.
  intros st X.
  refine (proj1 (proj2 (signal_relayed_verbatim st "a" (JStr "r1") "h" X _))).
  vm_compute. reflexivity.
Defined.

(** ** A signal from any socket *)

(** C10: a 'signal' is relayed whatever the registry says of its sender.
    The registry and the rooms of socket.io stay as they were, and the one
    packet that goes out is the same for every registry, also one in which
    the sender never joined a room. *)
Theorem signal_ignores_sender_state st sid (roomId roomId' : JsVal) to signal rooms' :
  (on_signal sid roomId to signal (srv_rooms st)).1 = srv_rooms st ∧
  (step st (On sid (Signal roomId to signal))).1 = st ∧
  (step st (On sid (Signal roomId to signal))).2
    = [mkDelivery (targets to (srv_adapter st)) "signal"
                  [JObj [("from", JStr sid); ("signal", signal)]]] ∧
  (step st (On sid (Signal roomId to signal))).2
    = (step (mkServer rooms' (srv_adapter st)) (On sid (Signal roomId' to signal))).2.
Proof.
  rewrite !step_signal. split_and!; reflexivity.
Qed.

(** ** What a handler does to socket.io's rooms *)

Lemma exec_all_deliveries sid (cmds : list Cmd) : ∀ ad (ds : list Delivery),
  Forall (λ cmd, ∀ r, cmd ≠ SocketJoin r) cmds →
  (foldl (λ acc cmd, let '(ad', ds') := exec sid cmd acc.1 in (ad', acc.2 ++ ds'))
         (ad, ds) cmds).2 = ds ++ (cmds ≫= λ cmd, (exec sid cmd ad).2).
Proof.
  induction cmds as [|cmd cmds IH]; intros ad ds Hall; simpl.
  - by rewrite app_nil_r.
  - apply Forall_cons in Hall as [Hcmd Hall].
    destruct cmd as [room|ev a|room ev a|room ev a]; simpl;
      try (rewrite IH by done; by rewrite <- app_assoc).
    by destruct (Hcmd room).
Qed.

Lemma on_join_room_cmds sid roomId role rooms :
  ∃ rest, (on_join_room sid roomId role rooms).2 = SocketJoin roomId :: rest ∧
          Forall (λ cmd, ∀ r, cmd ≠ SocketJoin r) rest.
Proof.
  unfold on_join_room.
  destruct (JsMap.get roomId _) as [room|]; [destruct (is_host role)|]; simpl;
    try destruct (host room) as [h|]; simpl; try destruct (negb _);
    eexists; (split; [reflexivity|]); repeat constructor; discriminate.
Qed.

Lemma step_join sid roomId role st :
  (step st (On sid (JoinRoom roomId role))).1
  = mkServer (on_join_room sid roomId role (srv_rooms st)).1
             (adapter_add sid roomId (srv_adapter st)) ∧
  ∃ rest, (on_join_room sid roomId role (srv_rooms st)).2 = SocketJoin roomId :: rest ∧
    (step st (On sid (JoinRoom roomId role))).2
    = rest ≫= λ cmd, (exec sid cmd (adapter_add sid roomId (srv_adapter st))).2.
Proof.
  destruct st as [rooms ad]. unfold step, handle. cbn [srv_rooms srv_adapter].
  destruct (on_join_room_cmds sid roomId role rooms) as [rest [Hcmds Hrest]].
  destruct (on_join_room sid roomId role rooms) as [rooms' cmds]. cbn [fst snd] in *.
  subst cmds. unfold exec_all. cbn [foldl exec fst snd app].
  pose proof (exec_all_keeps_rooms sid rest (adapter_add sid roomId ad) [] Hrest) as Hk.
  pose proof (exec_all_deliveries sid rest (adapter_add sid roomId ad) [] Hrest) as Hd.
  destruct (foldl _ _ rest) as [ad' ds]. simpl in *. subst. eauto.
Qed.


Lemma elem_received c (ds : list Delivery) ev (a : list JsVal) :
  (ev, a) ∈ received c ds ↔ ∃ d, d ∈ ds ∧ c ∈ recipients d ∧ event d = ev ∧ args d = a.
Proof.
  unfold received. rewrite list_elem_of_fmap. split.
  - intros [d [[= -> ->] Hd]]. apply list_elem_of_filter in Hd as [Hc Hd]. eauto.
  - intros [d [Hd [Hc [<- <-]]]]. exists d. split; [done|].
    apply list_elem_of_filter. eauto.
Qed.

(** ** More on 'disconnect': who is told, who stays *)

(** On a [Map], the handler emits one 'host-disconnected' for each room the
    socket hosts, in the order of the rooms, and nothing else; a socket that
    hosts no room, such as a viewer, leaves without anyone being told. *)
Theorem disconnect_notices sid (rooms : list (string * Room)) :
  JsMap.wf rooms →
  (on_disconnect sid rooms).2
  = (λ kv, SocketTo kv.1 "host-disconnected" []) <$> filter (λ kv, host kv.2 = Some sid) rooms.
Proof.
  intros Hwf. rewrite on_disconnect_eq by done. cbn [snd].
  induction rooms as [|[k v] rooms IH]; [done|].
  apply NoDup_cons in Hwf as [_ Hwf].
  cbn [mbind list_bind]. rewrite filter_cons, (IH Hwf). unfold host_left. cbn [fst snd].
  by destruct (decide (host v = Some sid)).
Qed.

Lemma disconnect_notices_witness :
  let rooms := [("r1", mkRoom (Some "h") ["v"]); ("r2", mkRoom (Some "g") ["h"]);
                ("r3", mkRoom (Some "h") [])] in
  (on_disconnect "h" rooms).2
  = [SocketTo "r1" "host-disconnected" []; SocketTo "r3" "host-disconnected" []].
Proof.
  intros rooms.
  refine (disconnect_notices "h" rooms _).
  unfold JsMap.wf. apply (bool_decide_unpack _). vm_compute. exact I.
Defined.

Lemma references_leave c sid room :
  c ≠ sid → references c (leave sid room) ↔ references c room.
Proof.
  intros Hne. unfold references, leave; simpl.
  rewrite list_elem_of_filter.
  destruct (decide (host room = Some sid)) as [Hh|Hh].
  - rewrite Hh. split; [intros [?|[_ ?]]; [done | by right] | intros [[= ?]|?]; [done | by right]].
  - split; [intros [?|[_ ?]]; [by left | by right] | intros [?|?]; [by left | by right]].
Qed.

Lemma references_not_abandoned c room :
  references c room → c ≠ "" → abandoned room = false.
Proof.
  unfold references, abandoned. destruct room as [h vs]; simpl. intros [->|Hin] Hne.
  - simpl. destruct (String.eqb_spec c ""); [done | reflexivity].
  - destruct vs; [by apply elem_of_nil in Hin|]. simpl. apply andb_false_r.
Qed.

(** The 'disconnect' of one socket leaves every other socket where it was:
    it is host or viewer of a room afterwards exactly if it was before. *)
Theorem disconnect_keeps_others sid c r rooms :
  JsMap.wf rooms → c ≠ sid → c ≠ "" →
  member c r (on_disconnect sid rooms).1 ↔ member c r rooms.
Proof.
  intros Hwf Hne Hc. rewrite on_disconnect_eq by done. cbn [fst]. unfold member. split.
  - intros [room [Hget Href]]. apply JsMapFacts.get_Some_elem in Hget.
    apply elem_swept in Hget as [_ [room0 [Hin ->]]].
    exists room0. split; [by apply JsMapFacts.elem_get | by apply references_leave in Href].
  - intros [room0 [Hget Href]]. exists (leave sid room0).
    assert (references c (leave sid room0)) as Href' by (by apply references_leave).
    split; [|done]. apply JsMapFacts.elem_get; [by apply wf_swept|].
    apply elem_swept. split; [by eapply references_not_abandoned|].
    exists room0. split; [by apply JsMapFacts.get_Some_elem | done].
Qed.

Lemma disconnect_keeps_others_witness :
  let rooms := [("r1", mkRoom (Some "h") ["v"; "w"])] in
  member "w" "r1" (on_disconnect "h" rooms).1 ↔ member "w" "r1" rooms.
Proof.
  intros rooms. refine (disconnect_keeps_others "h" "w" "r1" rooms _ _ _).
  - unfold JsMap.wf. apply (bool_decide_unpack _). vm_compute. exact I.
  - discriminate.
  - discriminate.
Defined.

(** Sockets with a non-empty id leave no room for the sweep to drop. *)
Lemma run_never_abandoned evs : ∀ rooms,
  JsMap.wf rooms →
  Forall (λ se : string * Event, se.1 ≠ "") evs →
  (∀ r room, (r, room) ∈ rooms →
     (∀ h, host room = Some h → h ≠ "") ∧ abandoned room = false) →
  ∀ r room, (r, room) ∈ run evs rooms →
     (∀ h, host room = Some h → h ≠ "") ∧ abandoned room = false.
Proof.
  induction evs as [|[sid e] evs IH]; intros rooms Hwf Hids Hinv; [done|].
  apply Forall_cons in Hids as [Hsid Hids]. simpl in Hsid.
  simpl. apply IH; [by apply wf_handle | done |].
  intros r room. destruct e as [roomId role|roomId to signal|data|]; simpl.
  - rewrite on_join_room_rooms. intros Hin.
    apply elem_set in Hin as [[_ ->]|Hin]; [|eauto].
    assert (∀ h, host (default (mkRoom None []) (JsMap.get roomId rooms)) = Some h → h ≠ "")
      as Hold.
    { destruct (JsMap.get roomId rooms) as [old|] eqn:Hget; [|done].
      apply JsMapFacts.get_Some_elem in Hget. by apply (Hinv roomId old). }
    unfold room_after_join. destruct (is_host role); simpl.
    + split; [by intros h [= <-]|].
      apply (references_not_abandoned sid); [by left | done].
    + split; [done|].
      apply (references_not_abandoned sid); [|done].
      right. simpl. apply elem_of_app. right. by apply list_elem_of_singleton.
  - eauto.
  - unfold on_frame. destruct (truthy _); simpl; eauto.
  - rewrite on_disconnect_eq by done. simpl. intros Hin.
    apply elem_swept in Hin as [Hab [room0 [Hin ->]]]. split; [|done].
    unfold leave. simpl. destruct (decide (host room0 = Some sid)); [done|].
    by apply (Hinv r room0).
Qed.

(** When the sockets' ids are not empty, the 'disconnect' of a socket that
    no room holds (it never joined, or it was swept already) changes
    nothing in the registry and tells nobody. *)
Theorem idle_disconnect_is_noop evs sid :
  Forall (λ se : string * Event, se.1 ≠ "") evs →
  joined sid (registry_after evs) = false →
  on_disconnect sid (registry_after evs) = (registry_after evs, []).
Proof.
  intros Hids Hj. rewrite on_disconnect_eq by apply wf_registry_after.
  destruct (swept_absent sid (registry_after evs)) as [-> ->]; [|done].
  intros r room Hin. split; [by eapply (joined_false sid _ Hj)|].
  eapply (run_never_abandoned evs []); [apply JsMapFacts.wf_nil | done | | done].
  intros r' room' Hin'. by apply elem_of_nil in Hin'.
Qed.

Lemma idle_disconnect_is_noop_witness :
  let evs := [("h", JoinRoom "r1" (JStr "host")); ("v", JoinRoom "r1" (JStr "viewer"))] in
  on_disconnect "x" (registry_after evs) = (registry_after evs, []).
Proof.
  intros evs. refine (idle_disconnect_is_noop evs "x" _ _).
  - apply (bool_decide_unpack _). vm_compute. exact I.
  - vm_compute. reflexivity.
Defined.

(** ** The registry and socket.io's rooms, side by side *)

Lemma steps_invariant (P : Server → Prop) ins : ∀ st,
  (∀ st i, P st → P (step st i).1) → P st → P (steps st ins).
Proof.
  induction ins as [|i ins IH]; intros st Hstep HP; [done|].
  simpl. apply IH; [done | by apply Hstep].
Qed.

Lemma references_after_join c sid role (old : option Room) :
  references c (room_after_join sid role old) →
  c = sid ∨ ∃ room0, old = Some room0 ∧ references c room0.
Proof.
  unfold references, room_after_join. destruct old as [room0|]; simpl;
    destruct (is_host role); simpl.
  - intros [[= ->]|Hin]; [by left | right; eauto].
  - intros [Hh|Hin]; [right; eauto|].
    apply elem_of_app in Hin as [Hin|Hin]; [right; eauto|].
    apply list_elem_of_singleton in Hin. by left.
  - intros [[= ->]|Hin]; [by left | by apply elem_of_nil in Hin].
  - intros [?|Hin]; [done|]. apply list_elem_of_singleton in Hin. by left.
Qed.

Lemma step_keeps_members_in_rooms st (i : Input) :
  JsMap.wf (srv_rooms st) ∧
  (∀ r room c, (r, room) ∈ srv_rooms st → references c room →
               c ∈ sockets_in r (srv_adapter st)) →
  JsMap.wf (srv_rooms (step st i).1) ∧
  (∀ r room c, (r, room) ∈ srv_rooms (step st i).1 → references c room →
               c ∈ sockets_in r (srv_adapter (step st i).1)).
Proof.
  intros [Hwf Hinv]. destruct i as [sid|sid e].
  - simpl. split; [done|]. intros r room c Hin Href.
    apply sockets_in_add. right. eauto.
  - destruct e as [roomId role|roomId to signal|data|].
    + destruct (step_join sid roomId role st) as [-> _]. cbn [srv_rooms srv_adapter].
      split; [apply (wf_handle sid (JoinRoom roomId role)), Hwf|].
      rewrite on_join_room_rooms. intros r room c Hin Href. apply sockets_in_add.
      apply elem_set in Hin as [[-> ->]|Hin]; [|right; eauto].
      apply references_after_join in Href as [->|[room0 [Hget Href]]]; [by left|].
      right. apply JsMapFacts.get_Some_elem in Hget. eauto.
    + by rewrite step_signal.
    + by rewrite step_frame.
    + rewrite step_disconnect. cbn [srv_rooms srv_adapter].
      rewrite on_disconnect_eq by done. cbn [fst].
      split; [by apply wf_swept|]. intros r room c Hin Href.
      apply elem_swept in Hin as [_ [room0 [Hin ->]]].
      assert (c ≠ sid) as Hne by (intros ->; by apply (leave_forgets sid room0)).
      apply sockets_in_del_all. split; [|done].
      apply references_leave in Href; eauto.
Qed.

Lemma members_in_rooms ins r room c :
  (r, room) ∈ srv_rooms (steps init ins) → references c room →
  c ∈ sockets_in r (srv_adapter (steps init ins)).
Proof.
  revert r room c.
  apply (steps_invariant
           (λ st, JsMap.wf (srv_rooms st) ∧
                  ∀ r room c, (r, room) ∈ srv_rooms st → references c room →
                              c ∈ sockets_in r (srv_adapter st)) ins init).
  - intros st i. apply step_keeps_members_in_rooms.
  - split; [apply JsMapFacts.wf_nil|]. intros r room c Hin. by apply elem_of_nil in Hin.
Qed.

(** Whoever the registry lists as host or viewer of a room is in the
    socket.io room of that name, after any inputs: a broadcast to the room
    misses no member. *)
Theorem registry_members_are_in_the_room ins c r :
  member c r (srv_rooms (steps init ins)) →
  c ∈ sockets_in r (srv_adapter (steps init ins)).
Proof.
  intros [room [Hget Href]]. apply JsMapFacts.get_Some_elem in Hget.
  by eapply members_in_rooms.
Qed.

Lemma registry_members_are_in_the_room_witness :
  let ins := [Connection "h"; Connection "v"; On "h" (JoinRoom "r1" (JStr "host"));
              On "v" (JoinRoom "r1" (JStr "viewer")); Connection "g";
              On "g" (JoinRoom "r1" (JStr "host"))] in
  "v" ∈ sockets_in "r1" (srv_adapter (steps init ins)).
Proof.
  intros ins. refine (registry_members_are_in_the_room ins "v" "r1" _).
  exists (mkRoom (Some "g") ["v"]). split; [reflexivity|].
  right. apply list_elem_of_singleton. reflexivity.
Defined.



(** ** What a 'join-room' sends, and to whom *)

Lemma on_join_room_out sid roomId role rooms :
  (on_join_room sid roomId role rooms).2
  = SocketJoin roomId ::
    if is_host role
    then [ SocketEmit "joined" [JObj [("role", JStr "host"); ("roomId", JStr roomId)]];
           SocketTo roomId "host-ready" [] ]
    else SocketEmit "joined" [JObj [("role", JStr "viewer"); ("roomId", JStr roomId)]]
         :: match host (default (mkRoom None []) (JsMap.get roomId rooms)) with
            | Some h =>
                if host_truthy (Some h)
                then [IoTo (JStr h) "viewer-joined" [JObj [("viewerId", JStr sid)]]]
                else []
            | None => []
            end.
Proof.
  unfold on_join_room, JsMap.has.
  destruct (JsMap.get roomId rooms) as [room|] eqn:Hget; simpl.
  - rewrite Hget. by destruct (is_host role).
  - rewrite JsMapFacts.get_set_eq. by destruct (is_host role).
Qed.

Lemma step_join_deliveries sid roomId role st :
  ∃ rest, (on_join_room sid roomId role (srv_rooms st)).2 = SocketJoin roomId :: rest ∧
    (step st (On sid (JoinRoom roomId role))).2
    = rest ≫= λ cmd, (exec sid cmd (adapter_add sid roomId (srv_adapter st))).2.
Proof. by destruct (step_join sid roomId role st) as [_ ?]. Qed.



(** Under admissible inputs, a socket in any socket.io room has a non-empty
    id and is in the room of its own name. *)
Lemma step_keeps_sockets_live st (i : Input) :
  (∀ c r, c ∈ sockets_in r (srv_adapter st) →
          c ≠ "" ∧ c ∈ sockets_in c (srv_adapter st)) →
  admissible st [i] = true →
  (∀ c r, c ∈ sockets_in r (srv_adapter (step st i).1) →
          c ≠ "" ∧ c ∈ sockets_in c (srv_adapter (step st i).1)).
Proof.
  intros HJ Hok c r. simpl in Hok. rewrite andb_true_r in Hok.
  destruct i as [sid|sid e].
  - apply negb_true_iff in Hok. simpl. intros Hin.
    assert (sid ≠ "") as Hsid by (by destruct (String.eqb_spec sid "")).
    apply sockets_in_add in Hin as [[-> ->]|Hin].
    + split; [done|]. apply sockets_in_add. by left.
    + destruct (HJ c r Hin) as [? ?]. split; [done|]. apply sockets_in_add. by right.
  - apply bool_decide_eq_true in Hok. destruct (HJ sid sid Hok) as [Hsid _].
    destruct e as [roomId role|roomId to signal|data|].
    + destruct (step_join sid roomId role st) as [-> _]. cbn [srv_adapter]. intros Hin.
      apply sockets_in_add in Hin as [[-> ->]|Hin].
      * split; [done|]. apply sockets_in_add. by right.
      * destruct (HJ c r Hin) as [? ?]. split; [done|]. apply sockets_in_add. by right.
    + rewrite step_signal. apply HJ.
    + rewrite step_frame. apply HJ.
    + rewrite step_disconnect. cbn [srv_adapter]. intros Hin.
      apply sockets_in_del_all in Hin as [Hin Hne].
      destruct (HJ c r Hin) as [? ?]. split; [done|]. by apply sockets_in_del_all.
Qed.

Lemma admissible_cons st (i : Input) ins :
  admissible st (i :: ins) = true ↔
  admissible st [i] = true ∧ admissible (step st i).1 ins = true.
Proof. simpl. rewrite andb_true_r. apply andb_true_iff. Qed.

Lemma sockets_live ins : ∀ st,
  (∀ c r, c ∈ sockets_in r (srv_adapter st) →
          c ≠ "" ∧ c ∈ sockets_in c (srv_adapter st)) →
  admissible st ins = true →
  ∀ c r, c ∈ sockets_in r (srv_adapter (steps st ins)) →
         c ≠ "" ∧ c ∈ sockets_in c (srv_adapter (steps st ins)).
Proof.
  induction ins as [|i ins IH]; intros st HJ Hok; [done|].
  apply admissible_cons in Hok as [Hi Hok]. simpl.
  apply IH; [by apply step_keeps_sockets_live | done].
Qed.

Lemma sockets_live_init ins c r :
  admissible init ins = true →
  c ∈ sockets_in r (srv_adapter (steps init ins)) →
  c ≠ "" ∧ c ∈ sockets_in c (srv_adapter (steps init ins)).
Proof.
  intros Hok. apply sockets_live; [|done].
  intros c' r' Hin. unfold sockets_in in Hin. simpl in Hin.
  rewrite lookup_empty in Hin. by apply not_elem_of_empty in Hin.
Qed.

(** Under admissible inputs, a socket that joins as viewer (any role but
    'host') makes the host of the room, if it has one, receive
    'viewer-joined' with the id of the joining socket; in a room without a
    host the acknowledgement to the joining socket is all that is sent. *)
Theorem viewer_join_reaches_the_host ins sid r role :
  admissible init ins = true →
  is_host role = false →
  let st := steps init ins in
  let ds := (step st (On sid (JoinRoom r role))).2 in
  (∀ room h, JsMap.get r (srv_rooms st) = Some room → host room = Some h →
     ("viewer-joined", [JObj [("viewerId", JStr sid)]]) ∈ received h ds) ∧
  (host (default (mkRoom None []) (JsMap.get r (srv_rooms st))) = None →
     ds = [mkDelivery {[sid]} "joined" [JObj [("role", JStr "viewer"); ("roomId", JStr r)]]]).
Proof.
  intros Hok Hrole st ds. subst ds.
  destruct (step_join_deliveries sid r role st) as [rest [Hcmds ->]].
  rewrite on_join_room_out, Hrole in Hcmds. injection Hcmds as <-. split.
  - intros room h Hget Hh. rewrite Hget. simpl. rewrite Hh.
    apply JsMapFacts.get_Some_elem in Hget.
    assert (h ∈ sockets_in r (srv_adapter st)) as Hin.
    { eapply members_in_rooms; [done | by left]. }
    destruct (sockets_live_init ins h r Hok Hin) as [Hne Hown].
    destruct (String.eqb_spec h "") as [?|_]; [done|]. cbn [negb].
    apply elem_received. eexists.
    split; [apply elem_of_cons; right; apply elem_of_cons; by left|].
    simpl. split_and!; [|done|done]. apply sockets_in_add. by right.
  - intros Hnone. rewrite Hnone. reflexivity.
Qed.

Lemma viewer_join_reaches_the_host_witness :
  let ins := [Connection "h"; On "h" (JoinRoom "r1" (JStr "host")); Connection "v"] in
  ("viewer-joined", [JObj [("viewerId", JStr "v")]])
    ∈ received "h" (step (steps init ins) (On "v" (JoinRoom "r1" (JStr "viewer")))).2.
Proof.
  intros ins.
  refine (proj1 (viewer_join_reaches_the_host ins "v" "r1" (JStr "viewer") _ _)
                (mkRoom (Some "h") []) "h" _ _).
  - vm_compute. reflexivity.
  - reflexivity.
  - reflexivity.
  - reflexivity.
Defined.

(** ** Nothing is sent to a socket that has gone *)

Lemma exec_all_absent sid t (cmds : list Cmd) : sid ≠ t →
  ∀ ad (ds : list Delivery),
  (∀ r, t ∉ sockets_in r ad) → Forall (λ d, t ∉ recipients d) ds →
  let res := foldl (λ acc cmd, let '(ad', ds') := exec sid cmd acc.1 in (ad', acc.2 ++ ds'))
                   (ad, ds) cmds in
  (∀ r, t ∉ sockets_in r res.1) ∧ Forall (λ d, t ∉ recipients d) res.2.
Proof.
  intros Hne. induction cmds as [|cmd cmds IH]; intros ad ds Had Hds; [done|].
  simpl. destruct cmd as [room|ev a|room ev a|room ev a]; simpl; apply IH; try done.
  - intros r Hin. apply sockets_in_add in Hin as [[_ ->]|Hin]; [done | by apply (Had r)].
  - by rewrite app_nil_r.
  - apply Forall_app. split; [done|]. apply Forall_singleton. simpl.
    by apply not_elem_of_singleton.
  - apply Forall_app. split; [done|]. apply Forall_singleton. simpl.
    intros Hin. apply elem_of_difference in Hin as [Hin _]. by apply (Had room).
  - apply Forall_app. split; [done|]. apply Forall_singleton. simpl.
    intros Hin. apply targets_spec in Hin as [r [_ Hin]]. by apply (Had r).
Qed.

Lemma step_absent st (i : Input) t :
  socket_of i ≠ t →
  (∀ r, t ∉ sockets_in r (srv_adapter st)) →
  (∀ r, t ∉ sockets_in r (srv_adapter (step st i).1)) ∧
  Forall (λ d, t ∉ recipients d) (step st i).2.
Proof.
  intros Hne Had. destruct st as [rooms ad]. destruct i as [sid|sid e]; simpl in *.
  - split; [|done]. intros r Hin.
    apply sockets_in_add in Hin as [[_ ->]|Hin]; [done | by apply (Had r)].
  - destruct (handle sid e rooms) as [rooms' cmds].
    assert (∀ r, t ∉ sockets_in r
              match e with Disconnect => adapter_del_all sid ad | _ => ad end) as Had'.
    { destruct e; try done. intros r Hin. apply sockets_in_del_all in Hin as [Hin _].
      by apply (Had r). }
    pose proof (exec_all_absent sid t cmds Hne _ [] Had' (Forall_nil_2 _)) as Hres.
    unfold exec_all. simpl in Hres. destruct (foldl _ _ cmds) as [ad' ds]. exact Hres.
Qed.

Lemma deliveries_absent ins t : ∀ st,
  Forall (λ i, socket_of i ≠ t) ins →
  (∀ r, t ∉ sockets_in r (srv_adapter st)) →
  Forall (λ d, t ∉ recipients d) (deliveries st ins).
Proof.
  induction ins as [|i ins IH]; intros st Hins Had; [done|].
  apply Forall_cons in Hins as [Hi Hins].
  destruct (step_absent st i t Hi Had) as [Had' Hds].
  simpl. apply Forall_app. split; [done | by apply IH].
Qed.

(** Once the 'disconnect' of a socket has been handled, nothing is sent to
    it any more, whatever the other sockets do and whoever they address,
    for as long as its id does not show up again. *)
Theorem nothing_sent_after_disconnect st t ins (d : Delivery) :
  Forall (λ i, socket_of i ≠ t) ins →
  d ∈ deliveries (step st (On t Disconnect)).1 ins →
  t ∉ recipients d.
Proof.
  intros Hins Hd.
  assert (Forall (λ d, t ∉ recipients d) (deliveries (step st (On t Disconnect)).1 ins)) as Hall.
  { apply deliveries_absent; [done|]. rewrite step_disconnect. cbn [srv_adapter].
    intros r Hin. by apply sockets_in_del_all in Hin as [_ ?]. }
  rewrite Forall_forall in Hall. by apply Hall.
Qed.

Lemma nothing_sent_after_disconnect_witness :
  let st := steps init [Connection "h"; Connection "v";
                        On "h" (JoinRoom "r1" (JStr "host"));
                        On "v" (JoinRoom "r1" (JStr "viewer"))] in
  let ins := [On "h" (Frame [("to", JStr "v"); ("data", JStr "AAAA")]);
              On "h" (Signal (JStr "r1") (JStr "v") (JStr "offer"))] in
  "v" ∉ recipients (mkDelivery (targets (JStr "v") (srv_adapter (step st (On "v" Disconnect)).1))
                               "frame" [JObj [("to", JStr "v"); ("data", JStr "AAAA")]]).
Proof.
  intros st ins.
  refine (nothing_sent_after_disconnect st "v" ins _ _ _).
  - apply (bool_decide_unpack _). vm_compute. exact I.
  - apply elem_of_cons. left. reflexivity.
Defined.

(** ** [Buffer.indexOf] *)

Implicit Types (pat buf : list Byte.byte).

Lemma starts_with_prefix pat buf :
  HostFfmpeg.starts_with pat buf = true ↔ ∃ k, buf = pat ++ k.
Proof.
  revert buf. induction pat as [|p pat IH]; intros buf; simpl.
  - split; [intros _; by exists buf | done].
  - destruct buf as [|b buf]; [split; [done | intros [k [=]]]|].
    destruct (decide (p = b)) as [->|Hne].
    + rewrite IH. split; intros [k Hk]; exists k; [by rewrite Hk | by injection Hk].
    + split; [done | intros [k [= ? _]]; done].
Qed.

Lemma starts_with_length pat buf :
  HostFfmpeg.starts_with pat buf = true → (List.length pat ≤ List.length buf)%nat.
Proof.
  intros H. apply starts_with_prefix in H as [k ->]. rewrite length_app. lia.
Qed.

Lemma starts_with_app pat a b :
  (List.length pat ≤ List.length a)%nat →
  HostFfmpeg.starts_with pat (a ++ b) = HostFfmpeg.starts_with pat a.
Proof.
  revert a. induction pat as [|p pat IH]; intros a Hlen; [done|].
  destruct a as [|x a]; simpl in *; [lia|].
  destruct (decide (p = x)); [apply IH; lia | done].
Qed.

Lemma starts_with_take pat n buf :
  HostFfmpeg.starts_with pat (take n buf) = true → HostFfmpeg.starts_with pat buf = true.
Proof.
  rewrite !starts_with_prefix. intros [k Hk]. exists (k ++ drop n buf).
  by rewrite app_assoc, <- Hk, take_drop.
Qed.

Lemma indexOf_spec buf pat i :
  HostFfmpeg.indexOf buf pat = Some i ↔
  HostFfmpeg.starts_with pat (drop i buf) = true ∧
  ∀ j, (j < i)%nat → HostFfmpeg.starts_with pat (drop j buf) = false.
Proof.
  revert i. induction buf as [|x buf IH]; intros i.
  - simpl. destruct (HostFfmpeg.starts_with pat []) eqn:E.
    + split.
      * intros [= <-]. split; [done | intros j Hj; lia].
      * intros [_ Hfirst]. destruct i as [|i]; [done|].
        specialize (Hfirst 0 ltac:(lia)). simpl in Hfirst. congruence.
    + split; [done|]. intros [Hat _]. rewrite drop_nil in Hat. congruence.
  - cbn [HostFfmpeg.indexOf]. destruct (HostFfmpeg.starts_with pat (x :: buf)) eqn:E.
    + split.
      * intros [= <-]. split; [done | intros j Hj; lia].
      * intros [_ Hfirst]. destruct i as [|i]; [done|].
        specialize (Hfirst 0 ltac:(lia)). simpl in Hfirst. congruence.
    + destruct i as [|i].
      * split; [by destruct (HostFfmpeg.indexOf buf pat)|].
        intros [Hat _]. simpl in Hat. congruence.
      * destruct (HostFfmpeg.indexOf buf pat) as [i'|] eqn:Hi; simpl.
        -- split.
           ++ intros [= <-]. destruct (proj1 (IH i') eq_refl) as [Hat Hfirst].
              split; [done|].
              intros [|j] Hj; [done|]. simpl. apply Hfirst. lia.
           ++ intros [Hat Hfirst]. assert (Some i' = Some i) as Heq; [|by injection Heq as ->].
              apply IH. split; [done|].
              intros j Hj. apply (Hfirst (S j)). lia.
        -- split; [done|]. intros [Hat Hfirst].
           assert (None = Some i) as Habs; [|done].
           apply IH. split; [done|]. intros j Hj. apply (Hfirst (S j)). lia.
Qed.

Lemma indexOf_bound buf pat i :
  HostFfmpeg.indexOf buf pat = Some i → pat ≠ [] → (i + List.length pat ≤ List.length buf)%nat.
Proof.
  intros Hi Hpat. apply indexOf_spec in Hi as [Hat _].
  apply starts_with_length in Hat. rewrite length_drop in Hat.
  destruct pat; [done|]. simpl in *. lia.
Qed.

Lemma indexOf_app a b pat i :
  pat ≠ [] → HostFfmpeg.indexOf a pat = Some i → HostFfmpeg.indexOf (a ++ b) pat = Some i.
Proof.
  intros Hpat Hi. pose proof (indexOf_bound _ _ _ Hi Hpat) as Hb.
  apply indexOf_spec in Hi as [Hat Hfirst]. apply indexOf_spec. split.
  - rewrite drop_app_le by lia. rewrite starts_with_app; [done|].
    rewrite length_drop. lia.
  - intros j Hj. rewrite drop_app_le by lia. rewrite starts_with_app; [by apply Hfirst|].
    rewrite length_drop. lia.
Qed.

Lemma indexOf_None buf pat :
  HostFfmpeg.indexOf buf pat = None ↔ ∀ j, HostFfmpeg.starts_with pat (drop j buf) = false.
Proof.
  split.
  - intros Hnone j. destruct (HostFfmpeg.starts_with pat (drop j buf)) eqn:E; [|done].
    exfalso. revert Hnone E. clear. revert j.
    induction buf as [|x buf IH]; intros j; simpl.
    + rewrite drop_nil. by destruct (HostFfmpeg.starts_with pat []).
    + destruct (HostFfmpeg.starts_with pat (x :: buf)) eqn:E0; [done|].
      destruct (HostFfmpeg.indexOf buf pat) eqn:Hi; [done|]. intros _.
      destruct j as [|j]; simpl; [congruence | by apply IH].
  - intros Hall. destruct (HostFfmpeg.indexOf buf pat) as [i|] eqn:Hi; [|done].
    apply indexOf_spec in Hi as [Hat _]. by rewrite Hall in Hat.
Qed.

(** ** The frame loop *)

Lemma markers_apart buf sIdx eIdx :
  HostFfmpeg.starts_with HostFfmpeg.SOI (drop sIdx buf) = true →
  HostFfmpeg.starts_with HostFfmpeg.EOI (drop eIdx buf) = true →
  eIdx ≠ sIdx ∧ eIdx ≠ S sIdx.
Proof.
  intros Hs He. apply starts_with_prefix in Hs as [ks Hs], He as [ke He].
  split; intros ->.
  - rewrite Hs in He. discriminate.
  - assert (drop 1 (drop sIdx buf) = drop (S sIdx) buf) as Hd by (by rewrite drop_drop, Nat.add_1_r).
    rewrite Hs, He in Hd. discriminate.
Qed.

Lemma frames_loop_fuel n : ∀ m buf,
  (List.length buf ≤ n)%nat → (List.length buf ≤ m)%nat →
  HostFfmpeg.frames_loop n buf = HostFfmpeg.frames_loop m buf.
Proof.
  assert (∀ k, HostFfmpeg.frames_loop k [] = ([], [])) as Hnil by (by intros [|k]).
  induction n as [|n IH]; intros m buf Hn Hm.
  - destruct buf; [by rewrite !Hnil | simpl in Hn; lia].
  - destruct m as [|m]; [destruct buf; [by rewrite !Hnil | simpl in Hm; lia]|].
    cbn [HostFfmpeg.frames_loop].
    destruct (HostFfmpeg.indexOf buf HostFfmpeg.SOI) as [sIdx|]; [|done].
    destruct (HostFfmpeg.indexOf buf HostFfmpeg.EOI) as [eIdx|] eqn:He; [|done].
    destruct (decide (sIdx < eIdx)); [|done].
    apply indexOf_bound in He; [|done]. simpl in He.
    rewrite (IH m); [done | |]; rewrite length_drop; lia.
Qed.

Lemma extract_unfold buf :
  HostFfmpeg.extract buf =
  match HostFfmpeg.indexOf buf HostFfmpeg.SOI, HostFfmpeg.indexOf buf HostFfmpeg.EOI with
  | Some sIdx, Some eIdx =>
      if decide (sIdx < eIdx) then
        let '(frames, rest) := HostFfmpeg.extract (drop (eIdx + 2) buf) in
        (HostFfmpeg.slice sIdx (eIdx + 2) buf :: frames, rest)
      else ([], buf)
  | _, _ => ([], buf)
  end.
Proof.
  unfold HostFfmpeg.extract. destruct buf as [|x buf]; [done|].
  cbn [List.length HostFfmpeg.frames_loop].
  destruct (HostFfmpeg.indexOf (x :: buf) HostFfmpeg.SOI) as [sIdx|]; [|done].
  destruct (HostFfmpeg.indexOf (x :: buf) HostFfmpeg.EOI) as [eIdx|] eqn:He; [|done].
  destruct (decide (sIdx < eIdx)); [|done].
  apply indexOf_bound in He; [|done]. simpl in He.
  rewrite (frames_loop_fuel _ (List.length (drop (eIdx + 2) (x :: buf)))); [done| |done].
  rewrite length_drop. simpl. lia.
Qed.

(** Reasoning along the turns of the loop. *)
Lemma extract_ind (P : list Byte.byte → list (list Byte.byte) * list Byte.byte → Prop) :
  (∀ buf, HostFfmpeg.no_frame buf → P buf ([], buf)) →
  (∀ buf sIdx eIdx frames rest,
     HostFfmpeg.indexOf buf HostFfmpeg.SOI = Some sIdx →
     HostFfmpeg.indexOf buf HostFfmpeg.EOI = Some eIdx →
     sIdx < eIdx →
     HostFfmpeg.extract (drop (eIdx + 2) buf) = (frames, rest) →
     P (drop (eIdx + 2) buf) (frames, rest) →
     P buf (HostFfmpeg.slice sIdx (eIdx + 2) buf :: frames, rest)) →
  ∀ buf, P buf (HostFfmpeg.extract buf).
Proof.
  intros Hbreak Hturn buf.
  induction buf as [buf IH] using (induction_ltof1 _ (@List.length Byte.byte)).
  unfold ltof in IH. rewrite extract_unfold.
  destruct (HostFfmpeg.indexOf buf HostFfmpeg.SOI) as [sIdx|] eqn:Hs;
    [|apply Hbreak; intros sIdx eIdx Hs' He'; congruence].
  destruct (HostFfmpeg.indexOf buf HostFfmpeg.EOI) as [eIdx|] eqn:He;
    [|apply Hbreak; intros sIdx' eIdx Hs' He'; congruence].
  destruct (decide (sIdx < eIdx)) as [Hlt|Hge];
    [|apply Hbreak; intros sIdx' eIdx' Hs' He'; congruence].
  destruct (HostFfmpeg.extract (drop (eIdx + 2) buf)) as [frames rest] eqn:Hrec.
  apply Hturn; try done. rewrite <- Hrec. apply IH.
  apply indexOf_bound in He; [|done]. simpl in He. rewrite length_drop. lia.
Qed.

Lemma frame_shape buf sIdx eIdx :
  HostFfmpeg.indexOf buf HostFfmpeg.SOI = Some sIdx →
  HostFfmpeg.indexOf buf HostFfmpeg.EOI = Some eIdx →
  sIdx < eIdx →
  let frame := HostFfmpeg.slice sIdx (eIdx + 2) buf in
  List.length frame = eIdx + 2 - sIdx ∧ (4 ≤ List.length frame)%nat ∧
  take 2 frame = HostFfmpeg.SOI ∧
  drop (List.length frame - 2) frame = HostFfmpeg.EOI ∧
  HostFfmpeg.indexOf frame HostFfmpeg.EOI = Some (List.length frame - 2) ∧
  buf = take sIdx buf ++ frame ++ drop (eIdx + 2) buf ∧
  HostFfmpeg.indexOf (take sIdx buf) HostFfmpeg.SOI = None.
Proof.
  intros Hs He Hlt frame.
  pose proof (indexOf_bound _ _ _ He ltac:(done)) as Hbe. simpl in Hbe.
  apply indexOf_spec in Hs as [Hsat Hsfirst], He as [Heat Hefirst].
  destruct (markers_apart buf sIdx eIdx Hsat Heat) as [_ Hne].
  assert (List.length frame = eIdx + 2 - sIdx) as Hlen.
  { unfold frame, HostFfmpeg.slice. rewrite length_take, length_drop. lia. }
  assert (drop (List.length frame - 2) frame = take 2 (drop eIdx buf)) as Htail.
  { rewrite Hlen. unfold frame, HostFfmpeg.slice.
    rewrite take_drop_commute, drop_drop.
    replace (sIdx + (eIdx + 2 - sIdx - 2)) with eIdx by lia.
    rewrite take_drop_commute. f_equal. f_equal. lia. }
  apply starts_with_prefix in Hsat as Hsat'. destruct Hsat' as [ks Hks].
  apply starts_with_prefix in Heat as Heat'. destruct Heat' as [ke Hke].
  assert (drop (List.length frame - 2) frame = HostFfmpeg.EOI) as Hend.
  { rewrite Htail, Hke. reflexivity. }
  split_and!; [done | lia | | done | | |].
  - unfold frame, HostFfmpeg.slice. rewrite take_take.
    replace (2 `min` (eIdx + 2 - sIdx)) with 2 by lia. by rewrite Hks.
  - apply indexOf_spec. split; [by rewrite Hend|].
    intros j Hj. destruct (HostFfmpeg.starts_with _ (drop j frame)) eqn:E; [|done].
    unfold frame, HostFfmpeg.slice in E.
    replace (eIdx + 2 - sIdx) with (j + (eIdx + 2 - sIdx - j)) in E by lia.
    rewrite <- take_drop_commute in E.
    apply starts_with_take in E. rewrite drop_drop in E.
    rewrite Hefirst in E by lia. done.
  - unfold frame, HostFfmpeg.slice.
    rewrite <- (take_drop sIdx buf) at 1. f_equal.
    rewrite <- (take_drop (eIdx + 2 - sIdx) (drop sIdx buf)) at 1. f_equal.
    rewrite drop_drop. f_equal. lia.
  - apply indexOf_None. intros j.
    destruct (HostFfmpeg.starts_with _ (drop j (take sIdx buf))) eqn:E; [|done].
    pose proof (starts_with_length _ _ E) as Hl.
    rewrite length_drop, length_take in Hl. simpl in Hl.
    replace sIdx with (j + (sIdx - j)) in E at 1 by lia.
    rewrite <- take_drop_commute in E. apply starts_with_take in E.
    rewrite Hsfirst in E by lia. done.
Qed.

(** Every frame the loop cuts out starts with the marker FF D8, ends with
    the marker FF D9, is at least four bytes long and has no FF D9 before
    its last two bytes. *)
Theorem frames_are_delimited buf frame :
  frame ∈ (HostFfmpeg.extract buf).1 →
  take 2 frame = HostFfmpeg.SOI ∧
  drop (List.length frame - 2) frame = HostFfmpeg.EOI ∧
  (4 ≤ List.length frame)%nat ∧
  HostFfmpeg.indexOf frame HostFfmpeg.EOI = Some (List.length frame - 2).
Proof.
  revert frame.
  apply (extract_ind (λ _ res, ∀ frame, frame ∈ res.1 → _ ∧ _ ∧ _ ∧ _)).
  - intros buf' _ frame Hin. by apply elem_of_nil in Hin.
  - intros buf' sIdx eIdx frames rest Hs He Hlt _ IH frame Hin.
    apply elem_of_cons in Hin as [->|Hin]; [|by apply IH].
    destruct (frame_shape buf' sIdx eIdx Hs He Hlt) as (_ & ? & ? & ? & ? & _). done.
Qed.

Lemma frames_are_delimited_witness :
  let frame := [Byte.xff; Byte.xd8; Byte.x4a; Byte.x46; Byte.xff; Byte.xd9] in
  take 2 frame = HostFfmpeg.SOI ∧
  drop (List.length frame - 2) frame = HostFfmpeg.EOI ∧
  (4 ≤ List.length frame)%nat ∧
  HostFfmpeg.indexOf frame HostFfmpeg.EOI = Some (List.length frame - 2).
Proof.
  intros frame.
  refine (frames_are_delimited
            ([Byte.x00; Byte.x01] ++ frame ++ [Byte.xff; Byte.xd8; Byte.x10]) frame _).
  vm_compute. apply elem_of_cons. left. reflexivity.
Defined.

Lemma loop_leaves_no_frame buf : HostFfmpeg.no_frame (HostFfmpeg.extract buf).2.
Proof.
  apply (extract_ind (λ _ res, HostFfmpeg.no_frame res.2)); [done|].
  by intros buf' sIdx eIdx frames rest _ _ _ _ IH.
Qed.

(** The loop comes to its [break] within as many turns as the buffer has
    bytes, and what it leaves in the buffer holds no further frame. *)
Theorem loop_runs_to_its_break buf fuel :
  (List.length buf ≤ fuel)%nat →
  HostFfmpeg.frames_loop fuel buf = HostFfmpeg.extract buf ∧
  HostFfmpeg.no_frame (HostFfmpeg.extract buf).2 ∧
  HostFfmpeg.extract (HostFfmpeg.extract buf).2 = ([], (HostFfmpeg.extract buf).2).
Proof.
  intros Hfuel. split; [by apply frames_loop_fuel|].
  pose proof (loop_leaves_no_frame buf) as Hno.
  split; [done|]. rewrite extract_unfold.
  destruct (HostFfmpeg.indexOf _ HostFfmpeg.SOI) as [sIdx|] eqn:Hs; [|done].
  destruct (HostFfmpeg.indexOf _ HostFfmpeg.EOI) as [eIdx|] eqn:He; [|done].
  destruct (decide (sIdx < eIdx)) as [Hlt|]; [|done]. by destruct (Hno sIdx eIdx).
Qed.

Lemma loop_runs_to_its_break_witness :
  let buf := [Byte.xff; Byte.xd8; Byte.x4a; Byte.xff; Byte.xd9; Byte.xff; Byte.xd8; Byte.x01] in
  HostFfmpeg.frames_loop 100 buf = HostFfmpeg.extract buf ∧
  HostFfmpeg.no_frame (HostFfmpeg.extract buf).2 ∧
  HostFfmpeg.extract (HostFfmpeg.extract buf).2 = ([], (HostFfmpeg.extract buf).2).
Proof.
  intros buf. refine (loop_runs_to_its_break buf 100 _). vm_compute. lia.
Defined.

(** The loop neither invents nor reorders bytes: the buffer is the frames,
    in order, each after a stretch of skipped bytes that holds no start
    marker, followed by what is left. *)
Theorem extract_partitions_the_buffer buf :
  ∃ gaps : list (list Byte.byte),
    List.length gaps = List.length (HostFfmpeg.extract buf).1 ∧
    Forall (λ gap, HostFfmpeg.indexOf gap HostFfmpeg.SOI = None) gaps ∧
    buf = concat (zip_with app gaps (HostFfmpeg.extract buf).1) ++ (HostFfmpeg.extract buf).2.
Proof.
  apply (extract_ind (λ buf res, ∃ gaps : list (list Byte.byte),
           List.length gaps = List.length res.1 ∧
           Forall (λ gap, HostFfmpeg.indexOf gap HostFfmpeg.SOI = None) gaps ∧
           buf = concat (zip_with app gaps res.1) ++ res.2)).
  - intros buf' _. exists []. by split_and!.
  - intros buf' sIdx eIdx frames rest Hs He Hlt _ [gaps (Hlen & Hgaps & Hbuf)].
    destruct (frame_shape buf' sIdx eIdx Hs He Hlt) as (_ & _ & _ & _ & _ & Hsplit & Hgap).
    exists (take sIdx buf' :: gaps). simpl. split_and!.
    + by rewrite Hlen.
    + by apply Forall_cons.
    + simpl in Hbuf. rewrite <- !app_assoc, <- Hbuf. exact Hsplit.
Qed.

Lemma extract_stalled buf sIdx eIdx more :
  HostFfmpeg.indexOf buf HostFfmpeg.SOI = Some sIdx →
  HostFfmpeg.indexOf buf HostFfmpeg.EOI = Some eIdx →
  eIdx < sIdx →
  HostFfmpeg.extract (buf ++ more) = ([], buf ++ more).
Proof.
  intros Hs He Hlt. rewrite extract_unfold.
  rewrite (indexOf_app buf more HostFfmpeg.SOI sIdx) by done.
  rewrite (indexOf_app buf more HostFfmpeg.EOI eIdx) by done.
  rewrite decide_False by lia. done.
Qed.

(** When the first end marker in the buffer comes before the first start
    marker, the callback is stuck: whatever arrives afterwards, no frame is
    ever sent again and the buffer only grows. *)
Theorem end_marker_first_stalls encode connected viewerSocketId buf sIdx eIdx
    (chunks : list (list Byte.byte)) :
  HostFfmpeg.indexOf buf HostFfmpeg.SOI = Some sIdx →
  HostFfmpeg.indexOf buf HostFfmpeg.EOI = Some eIdx →
  eIdx < sIdx →
  HostFfmpeg.on_chunks encode connected viewerSocketId buf chunks
  = (buf ++ concat chunks, []).
Proof.
  intros Hs He Hlt. revert buf Hs He.
  induction chunks as [|data chunks IH]; intros buf Hs He; cbn [HostFfmpeg.on_chunks concat].
  - by rewrite app_nil_r.
  - unfold HostFfmpeg.on_data. rewrite (extract_stalled buf sIdx eIdx data Hs He Hlt).
    rewrite (IH (buf ++ data)); [| by apply indexOf_app | by apply indexOf_app].
    rewrite <- app_assoc.
    destruct viewerSocketId as [v|]; [destruct (connected && host_truthy (Some v))|]; done.
Qed.

Lemma end_marker_first_stalls_witness :
  let buf := [Byte.x9c; Byte.xff; Byte.xd9; Byte.xff; Byte.xd8; Byte.x4a] in
  let chunks := [[Byte.x46; Byte.xff; Byte.xd9]; [Byte.xff; Byte.xd8; Byte.x00; Byte.xff; Byte.xd9]] in
  HostFfmpeg.on_chunks (λ _, JNull) true (Some "v") buf chunks = (buf ++ concat chunks, []).
Proof.
  intros buf chunks.
  refine (end_marker_first_stalls (λ _, JNull) true (Some "v") buf 3 1 chunks _ _ _).
  - vm_compute. reflexivity.
  - vm_compute. reflexivity.
  - lia.
Defined.

Lemma extract_app a b :
  HostFfmpeg.extract (a ++ b) =
  let '(frames, rest) := HostFfmpeg.extract a in
  let '(frames', rest') := HostFfmpeg.extract (rest ++ b) in
  (frames ++ frames', rest').
Proof.
  apply (extract_ind (λ a res,
           HostFfmpeg.extract (a ++ b) =
           let '(frames, rest) := res in
           let '(frames', rest') := HostFfmpeg.extract (rest ++ b) in
           (frames ++ frames', rest'))).
  - intros a' _. by destruct (HostFfmpeg.extract (a' ++ b)).
  - intros a' sIdx eIdx frames rest Hs He Hlt _ IH.
    pose proof (indexOf_bound _ _ _ He ltac:(done)) as Hb. simpl in Hb.
    rewrite extract_unfold.
    rewrite (indexOf_app a' b HostFfmpeg.SOI sIdx) by done.
    rewrite (indexOf_app a' b HostFfmpeg.EOI eIdx) by done.
    rewrite decide_True by done.
    rewrite drop_app_le by lia. rewrite IH.
    destruct (HostFfmpeg.extract (rest ++ b)) as [frames' rest'].
    unfold HostFfmpeg.slice. rewrite drop_app_le by lia.
    rewrite take_app_le by (rewrite length_drop; lia). done.
Qed.

(** How ffmpeg's output is cut into chunks makes no difference: from a
    buffer as the callback leaves it (no frame in it), the callback run
    chunk after chunk sends the same frames and keeps the same buffer as
    one run over all the data at once. *)
Theorem chunking_does_not_matter encode connected viewerSocketId buf
    (chunks : list (list Byte.byte)) :
  HostFfmpeg.no_frame buf →
  HostFfmpeg.on_chunks encode connected viewerSocketId buf chunks
  = HostFfmpeg.on_data encode connected viewerSocketId buf (concat chunks).
Proof.
  intros Hno. revert buf Hno.
  induction chunks as [|data chunks IH]; intros buf Hno; cbn [HostFfmpeg.on_chunks concat].
  - unfold HostFfmpeg.on_data. rewrite app_nil_r, extract_unfold.
    destruct (HostFfmpeg.indexOf buf HostFfmpeg.SOI) as [sIdx|] eqn:Hs;
      [destruct (HostFfmpeg.indexOf buf HostFfmpeg.EOI) as [eIdx|] eqn:He;
         [destruct (decide (sIdx < eIdx)); [by destruct (Hno sIdx eIdx)|]|]|];
      destruct viewerSocketId as [v|]; try destruct (connected && host_truthy (Some v)); done.
  - unfold HostFfmpeg.on_data.
    rewrite (app_assoc buf data), (extract_app (buf ++ data)).
    destruct (HostFfmpeg.extract (buf ++ data)) as [frames rest] eqn:Hfirst.
    assert (HostFfmpeg.no_frame rest) as Hrest.
    { pose proof (loop_leaves_no_frame (buf ++ data)) as H. by rewrite Hfirst in H. }
    rewrite (IH rest Hrest). unfold HostFfmpeg.on_data.
    destruct (HostFfmpeg.extract (rest ++ concat chunks)) as [frames' rest'].
    destruct viewerSocketId as [v|]; [|done].
    destruct (connected && host_truthy (Some v)); [|done]. by rewrite fmap_app.
Qed.

Lemma chunking_does_not_matter_witness :
  let chunks := [[Byte.x00; Byte.xff; Byte.xd8; Byte.x4a]; [Byte.x46; Byte.xff];
                 [Byte.xd9; Byte.xff; Byte.xd8]] in
  HostFfmpeg.on_chunks (λ _, JNull) true (Some "v") [] chunks
  = HostFfmpeg.on_data (λ _, JNull) true (Some "v") [] (concat chunks).
Proof.
  intros chunks.
  refine (chunking_does_not_matter (λ _, JNull) true (Some "v") [] chunks _).
  intros sIdx eIdx Hs. vm_compute in Hs. discriminate.
Defined.

(** ** From ffmpeg's output to the viewer *)

Lemma received_app c (ds ds' : list Delivery) :
  received c (ds ++ ds') = received c ds ++ received c ds'.
Proof. unfold received. by rewrite filter_app, fmap_app. Qed.

Lemma step_frame_to st sid v (p : JsVal) :
  v ≠ "" →
  step st (On sid (Frame [("to", JStr v); ("data", p)]))
  = (st, [mkDelivery (sockets_in v (srv_adapter st)) "frame"
                     [JObj [("to", JStr v); ("data", p)]]]).
Proof.
  intros Hne. rewrite step_frame. simpl.
  by destruct (String.eqb_spec v "").
Qed.

Lemma frames_relayed_in_order st sid v (payloads : list JsVal) :
  connected v st → v ≠ "" →
  received v (deliveries st ((λ p, On sid (Frame [("to", JStr v); ("data", p)])) <$> payloads))
  = (λ p, ("frame", [JObj [("to", JStr v); ("data", p)]])) <$> payloads.
Proof.
  intros Hconn Hne. induction payloads as [|p payloads IH]; [done|].
  cbn [fmap list_fmap deliveries]. rewrite step_frame_to by done. cbn [fst snd].
  rewrite received_app, received_one by done. cbn [event args app].
  f_equal. exact IH.
Qed.

(** Host and server together: while the host is connected and streams to
    the viewer [v], every frame that the 'data' callback cuts out of
    ffmpeg's output is delivered to [v] by the server, encoded, once each
    and in the order of the stream, and [v] is sent nothing else. *)
Theorem frames_reach_the_viewer encode st sid v buf (data : list Byte.byte) :
  connected v st → v ≠ "" →
  received v (deliveries st (On sid <$> (HostFfmpeg.on_data encode true (Some v) buf data).2))
  = (λ frame, ("frame", [JObj [("to", JStr v); ("data", encode frame)]]))
      <$> (HostFfmpeg.extract (buf ++ data)).1.
Proof.
  intros Hconn Hne. unfold HostFfmpeg.on_data.
  destruct (HostFfmpeg.extract (buf ++ data)) as [frames rest]. cbn [fst snd].
  assert (host_truthy (Some v) = true) as ->.
  { simpl. by destruct (String.eqb_spec v ""). }
  cbn [andb].
  replace (On sid <$> ((λ frame, Frame [("to", JStr v); ("data", encode frame)]) <$> frames))
    with ((λ p, On sid (Frame [("to", JStr v); ("data", p)])) <$> (encode <$> frames))
    by (by rewrite <- !list_fmap_compose).
  rewrite frames_relayed_in_order by done. by rewrite <- list_fmap_compose.
Qed.

Lemma frames_reach_the_viewer_witness :
  let st := steps init [Connection "h"; Connection "v";
                        On "h" (JoinRoom "my-desktop" (JStr "host"));
                        On "v" (JoinRoom "my-desktop" (JStr "viewer"))] in
  let data := [Byte.xff; Byte.xd8; Byte.x4a; Byte.xff; Byte.xd9;
               Byte.xff; Byte.xd8; Byte.x46; Byte.xff; Byte.xd9; Byte.xff] in
  received "v" (deliveries st (On "h" <$> (HostFfmpeg.on_data (λ _, JNull) true (Some "v") [] data).2))
  = (λ frame, ("frame", [JObj [("to", JStr "v"); ("data", JNull)]]))
      <$> (HostFfmpeg.extract ([] ++ data)).1.
Proof.
  intros st data.
  refine (frames_reach_the_viewer (λ _, JNull) st "h" "v" [] data _ _).
  - vm_compute. reflexivity.
  - discriminate.
Defined.

(** ** The relay keeps the order *)

Lemma relay_step st sid e t :
  relay_to e = Some (JStr t) → t ≠ "" → connected t st →
  (step st (On sid e)).1 = st ∧
  received t (step st (On sid e)).2 = relayed_packet sid e.
Proof.
  intros Hto Hne Hconn. destruct e as [roomId role|roomId to signal|data|]; try done.
  - injection Hto as ->. rewrite step_signal. cbn [fst snd].
    split; [done|]. by rewrite received_one.
  - injection Hto as Hto. rewrite step_frame, Hto. cbn [truthy].
    destruct (String.eqb_spec t "") as [?|_]; [done|]. cbn [negb fst snd].
    split; [done|]. by rewrite received_one.
Qed.

(** Signals and frames addressed to a connected socket [t], from whatever
    senders, reach [t] one packet each and in the order in which the
    server handled them, and relaying them leaves the server as it was. *)
Theorem relay_preserves_order st t (evs : list (string * Event)) :
  connected t st → t ≠ "" →
  Forall (λ se, relay_to se.2 = Some (JStr t)) evs →
  steps st ((λ se, On se.1 se.2) <$> evs) = st ∧
  received t (deliveries st ((λ se, On se.1 se.2) <$> evs))
  = evs ≫= λ se, relayed_packet se.1 se.2.
Proof.
  intros Hconn Hne Hall. induction evs as [|[sid e] evs IH]; [done|].
  apply Forall_cons in Hall as [Hto Hall]. simpl in Hto.
  destruct (relay_step st sid e t Hto Hne Hconn) as [Hst Hrecv].
  destruct (IH Hall) as [IHst IHrecv].
  cbn [fmap list_fmap steps foldl deliveries mbind list_bind fst snd].
  rewrite Hst. split; [exact IHst|].
  by rewrite received_app, Hrecv, IHrecv.
Qed.

Lemma relay_preserves_order_witness :
  let st := steps init [Connection "h"; Connection "a"; Connection "b"] in
  let evs := [("a", Signal (JStr "r1") (JStr "h") (JStr "offer"));
              ("b", Frame [("to", JStr "h"); ("data", JStr "AAAA")]);
              ("a", Signal JUndefined (JStr "h") (JStr "candidate"))] in
  steps st ((λ se, On se.1 se.2) <$> evs) = st ∧
  received "h" (deliveries st ((λ se, On se.1 se.2) <$> evs))
  = [("signal", [JObj [("from", JStr "a"); ("signal", JStr "offer")]]);
     ("frame", [JObj [("to", JStr "h"); ("data", JStr "AAAA")]]);
     ("signal", [JObj [("from", JStr "a"); ("signal", JStr "candidate")]])].
Proof.
  intros st evs. refine (relay_preserves_order st "h" evs _ _ _).
  - vm_compute. reflexivity.
  - discriminate.
  - repeat constructor.
Defined.

(** ** A join takes nothing away *)

(** A 'join-room', with whatever role, deletes no room and removes no
    viewer from any room: each room is still there with its viewers in
    place, possibly one more at the end; and the host of a room changes
    only for the room that is named, and only when the role is 'host'. *)
Theorem join_takes_nothing_away sid roomId role rooms r room :
  JsMap.get r rooms = Some room →
  ∃ room', JsMap.get r (on_join_room sid roomId role rooms).1 = Some room' ∧
    viewers room `prefix_of` viewers room' ∧
    (host room' = host room ∨ (r = roomId ∧ is_host role = true ∧ host room' = Some sid)).
Proof.
  intros Hget. rewrite on_join_room_rooms. destruct (decide (roomId = r)) as [->|Hne].
  - rewrite JsMapFacts.get_set_eq, Hget. eexists. split; [done|].
    unfold room_after_join. simpl. destruct (is_host role); simpl.
    + split; [done | by right].
    + split; [by apply prefix_app_r | by left].
  - rewrite JsMapFacts.get_set_ne by done. exists room. split_and!; [done | done | by left].
Qed.

Lemma join_takes_nothing_away_witness :
  ∃ room', JsMap.get "r1" (on_join_room "g" "r1" (JStr "host")
                             [("r1", mkRoom (Some "h") ["v"; "w"])]).1 = Some room' ∧
    ["v"; "w"] `prefix_of` viewers room' ∧
    (host room' = Some "h" ∨ ("r1" = "r1" ∧ is_host (JStr "host") = true ∧ host room' = Some "g")).
Proof.
  exact (join_takes_nothing_away "g" "r1" (JStr "host")
           [("r1", mkRoom (Some "h") ["v"; "w"])] "r1" (mkRoom (Some "h") ["v"; "w"]) eq_refl).
Defined.
